(** * Markov process estimator (processestimator.py)

    A shallow embedding of [MarkovProcessEstimator] and the proofs of its
    counting invariants.

    Modelling choices.
    - A state label is a Python [str]: [string].
    - Python [int] counters are unbounded integers: [Z].
    - [defaultdict] is a finite map ([gmap]) together with the read
      operation [dd_getitem] that inserts the default value under a missing
      key, as [defaultdict.__getitem__] does.  Reads are therefore
      state-changing, and every method is a computation in the state monad
      [State] over the record [Estimator].
    - The quotient [count / total] of two Python integers is an IEEE double.
      It is modelled by the exact rational number [Q] it rounds; equality of
      probabilities is [Qeq].
    - [set] is [gset]; iteration over a set visits [elements] of it.
    - An episode is stored by value.  The estimator itself never mutates a
      retained episode. *)

From Stdlib Require Import ZArith QArith Lia.
From stdpp Require Import gmap strings list fin_maps fin_sets sorting.

Set Warnings "-clear-no-such-hyp".

Local Close Scope Q_scope.
Local Open Scope Z_scope.

(** * Part I: the program *)

(** ** defaultdict *)

Section defaultdict.
Context `{Countable K} {V : Type}.

(** [d[k]] on a [defaultdict] whose factory returns [dflt]: a missing key is
    inserted with the default before its value is returned. *)
Definition dd_getitem (dflt : V) (k : K) (d : gmap K V) : V * gmap K V :=
  match d !! k with
  | Some v => (v, d)
  | None => (dflt, <[k := dflt]> d)
  end.

(** The value a read returns, without the insertion. *)
Definition dd_value (dflt : V) (k : K) (d : gmap K V) : V :=
  default dflt (d !! k).

End defaultdict.

(** ** The estimator object *)

Record Estimator := mkEstimator {
  states : gset string;
  transition_counts : gmap string (gmap string Z);
  state_counts : gmap string Z;
  episodes : list (list string)
}.

(** [__init__] *)
Definition init : Estimator :=
  {| states := ∅; transition_counts := ∅; state_counts := ∅; episodes := [] |}.

(** ** State monad over the estimator *)

Definition State (A : Type) : Type := Estimator → A * Estimator.

Definition ret {A} (a : A) : State A := λ e, (a, e).

Definition bind {A B} (c : State A) (k : A → State B) : State B :=
  λ e, let (a, e') := c e in k a e'.

Notation "x <- c ;; k" := (bind c (λ x, k))
  (at level 100, c at next level, right associativity).
Notation "c ;; k" := (bind c (λ _, k))
  (at level 100, right associativity).

(** A [for] loop that threads a local accumulator. *)
Fixpoint for_fold {A B} (l : list A) (body : A → B → State B) (acc : B) : State B :=
  match l with
  | [] => ret acc
  | a :: l' => acc' <- body a acc ;; for_fold l' body acc'
  end.

(** A [for] loop executed for its effect only. *)
Definition for_each {A} (l : list A) (body : A → State unit) : State unit :=
  for_fold l (λ a _, body a) tt.

(** *** Primitive accesses to the fields *)

Definition get_states : State (gset string) := λ e, (states e, e).

(** [self.states.add(s)] *)
Definition states_add (s : string) : State unit := λ e,
  (tt, {| states := {[s]} ∪ states e; transition_counts := transition_counts e;
          state_counts := state_counts e; episodes := episodes e |}).

(** [self.episodes.append(episode)] *)
Definition episodes_append (episode : list string) : State unit := λ e,
  (tt, {| states := states e; transition_counts := transition_counts e;
          state_counts := state_counts e; episodes := episodes e ++ [episode] |}).

(** [len(self.episodes)] *)
Definition episodes_len : State nat := λ e, (length (episodes e), e).

(** [self.state_counts[s]] *)
Definition state_counts_get (s : string) : State Z := λ e,
  let (v, sc) := dd_getitem 0 s (state_counts e) in
  (v, {| states := states e; transition_counts := transition_counts e;
         state_counts := sc; episodes := episodes e |}).

(** [self.state_counts[s] += 1] *)
Definition state_counts_incr (s : string) : State unit := λ e,
  let (v, sc) := dd_getitem 0 s (state_counts e) in
  (tt, {| states := states e; transition_counts := transition_counts e;
          state_counts := <[s := v + 1]> sc; episodes := episodes e |}).

(** [self.transition_counts[s][t]]: the outer read creates the row of [s],
    the inner read creates the entry of [t] in that row. *)
Definition transition_counts_get (s t : string) : State Z := λ e,
  let (row, tc) := dd_getitem ∅ s (transition_counts e) in
  let (v, row') := dd_getitem 0 t row in
  (v, {| states := states e; transition_counts := <[s := row']> tc;
         state_counts := state_counts e; episodes := episodes e |}).

(** [self.transition_counts[s][t] += 1] *)
Definition transition_counts_incr (s t : string) : State unit := λ e,
  let (row, tc) := dd_getitem ∅ s (transition_counts e) in
  let (v, row') := dd_getitem 0 t row in
  (tt, {| states := states e; transition_counts := <[s := <[t := v + 1]> row']> tc;
          state_counts := state_counts e; episodes := episodes e |}).

(** ** Methods *)

(** One iteration of the loop of [add_episode]. *)
Definition observe_transition (state_from state_to : string) : State unit :=
  states_add state_from ;;
  states_add state_to ;;
  transition_counts_incr state_from state_to ;;
  state_counts_incr state_from.

(** [add_episode].  The indices [i] and [i + 1] are below [len(episode)] for
    every [i] in [range(len(episode) - 1)], so that the subscripts never
    fail (see [add_episode_pairs]). *)
Definition add_episode (episode : list string) : State unit :=
  if (length episode <? 2)%nat then ret tt
  else
    episodes_append episode ;;
    for_each (seq 0 (length episode - 1)) (λ i,
      match episode !! i, episode !! (i + 1)%nat with
      | Some state_from, Some state_to => observe_transition state_from state_to
      | _, _ => ret tt
      end).

(** [get_transition_probability] *)
Definition get_transition_probability (state_from state_to : string) : State Q :=
  c <- state_counts_get state_from ;;
  if c =? 0 then ret 0%Q
  else
    count <- transition_counts_get state_from state_to ;;
    total <- state_counts_get state_from ;;
    ret (inject_Z count / inject_Z total)%Q.

(** [get_transition_matrix] *)
Definition get_transition_matrix : State (gmap string (gmap string Q)) :=
  sts <- get_states ;;
  for_fold (elements sts) (λ state_from matrix,
    let matrix := <[state_from := ∅]> matrix in
    sts' <- get_states ;;
    for_fold (elements sts') (λ state_to matrix,
      p <- get_transition_probability state_from state_to ;;
      ret (<[state_from := <[state_to := p]> (default ∅ (matrix !! state_from))]> matrix))
      matrix) ∅.

Record TransitionStat := mkTransitionStat { count : Z; probability : Q }.

Record StateStat := mkStateStat {
  total_occurrences : Z;
  transitions : gmap string TransitionStat
}.

(** [get_state_statistics] *)
Definition get_state_statistics : State (gmap string StateStat) :=
  sts <- get_states ;;
  for_fold (elements sts) (λ state stats,
    total_count <- state_counts_get state ;;
    sts' <- get_states ;;
    transitions <- for_fold (elements sts') (λ next_state transitions,
      count <- transition_counts_get state next_state ;;
      prob <- get_transition_probability state next_state ;;
      if 0 <? count
      then ret (<[next_state := mkTransitionStat count prob]> transitions)
      else ret transitions) ∅ ;;
    ret (<[state := mkStateStat total_count transitions]> stats)) ∅.

(** The lines [print_summary] writes, before formatting. *)
Inductive Line :=
| LStateSpace (sts : list string)
| LTotalEpisodes (n : nat)
| LHeading
| LRule
| LFrom (state_from : string) (observed : Z)
| LTo (state_to : string) (prob : Q) (times : Z).

(** [sorted(self.states)] *)
Definition sorted_states : State (list string) :=
  sts <- get_states ;; ret (merge_sort String.le (elements sts)).

(** [print_summary]; the value is the text written to standard output. *)
Definition print_summary : State (list Line) :=
  space <- sorted_states ;;
  n <- episodes_len ;;
  let out := [LStateSpace space; LTotalEpisodes n; LHeading; LRule] in
  froms <- sorted_states ;;
  for_fold froms (λ state_from out,
    c <- state_counts_get state_from ;;
    if c =? 0 then ret out
    else
      observed <- state_counts_get state_from ;;
      let out := out ++ [LFrom state_from observed] in
      tos <- sorted_states ;;
      for_fold tos (λ state_to out,
        prob <- get_transition_probability state_from state_to ;;
        count <- transition_counts_get state_from state_to ;;
        if 0 <? count then ret (out ++ [LTo state_to prob count]) else ret out)
        out) out.

(** ** The script under [__main__] *)

(** The example data under [__main__]. *)
Definition example_episodes : list (list string) :=
  [ ["Home"; "Coffee"; "Coffee"; "Chat"; "Chat"; "Coffee"; "Computer"; "Computer"; "Home"];
    ["Computer"; "Computer"; "Chat"; "Chat"; "Coffee"; "Computer"; "Computer"; "Computer"];
    ["Home"; "Home"; "Coffee"; "Chat"; "Computer"; "Coffee"; "Coffee"] ].

(** The script under [__main__]: the three episodes are ingested, the summary
    is printed and the two probabilities are queried.  The value is what the
    script prints: the lines of the summary and the two probabilities. *)
Definition main : State (list Line * Q * Q) :=
  for_each example_episodes add_episode ;;
  out <- print_summary ;;
  p1 <- get_transition_probability "Home" "Coffee" ;;
  p2 <- get_transition_probability "Coffee" "Chat" ;;
  ret (out, p1, p2).

(** ** Clients *)

(** A call of a public method. *)
Inductive Call :=
| CallAddEpisode (episode : list string)
| CallGetTransitionProbability (state_from state_to : string)
| CallGetTransitionMatrix
| CallGetStateStatistics
| CallPrintSummary.

(** The estimator after a call. *)
Definition after_call (e : Estimator) (c : Call) : Estimator :=
  match c with
  | CallAddEpisode episode => (add_episode episode e).2
  | CallGetTransitionProbability a b => (get_transition_probability a b e).2
  | CallGetTransitionMatrix => (get_transition_matrix e).2
  | CallGetStateStatistics => (get_state_statistics e).2
  | CallPrintSummary => (print_summary e).2
  end.

(** The estimator after a sequence of calls on a fresh object. *)
Definition after_calls (cs : list Call) : Estimator := foldl after_call init cs.

(** The estimator after [add_episode] on each episode in turn, as in the
    loop under [__main__]. *)
Definition ingest (eps : list (list string)) : Estimator :=
  foldl (λ e episode, (add_episode episode e).2) init eps.

(** The probabilities [get_transition_probability(s, t)] for [t] in
    [self.states], queried one after the other. *)
Definition row_probabilities (s : string) : State (list Q) :=
  sts <- get_states ;;
  for_fold (elements sts) (λ t row,
    p <- get_transition_probability s t ;;
    ret (row ++ [p])) [].

(** ** Views of the counters *)

(** The value of [self.state_counts[s]]. *)
Definition state_count (e : Estimator) (s : string) : Z :=
  dd_value 0 s (state_counts e).

(** The row [self.transition_counts[s]]. *)
Definition transition_row (e : Estimator) (s : string) : gmap string Z :=
  dd_value ∅ s (transition_counts e).

(** The value of [self.transition_counts[s][t]]. *)
Definition transition_count (e : Estimator) (s t : string) : Z :=
  dd_value 0 t (transition_row e s).

(** The sum of all entries of a row. *)
Definition row_total (row : gmap string Z) : Z :=
  map_fold (λ _ c acc, c + acc) 0 row.

(** The sum over all destinations [t] of [self.transition_counts[s][t]]. *)
Definition outgoing_total (e : Estimator) (s : string) : Z :=
  row_total (transition_row e s).

(** [sum(l)] for a list of integers and for a list of rationals. *)
Definition Zsum (l : list Z) : Z := foldr Z.add 0 l.

Definition Qsum (l : list Q) : Q := foldr Qplus 0%Q l.

(** ** Definitions used in the proofs *)

(** The estimator with [self.state_counts[s]] set to [v]. *)
Definition put_state_count (s : string) (v : Z) (e : Estimator) : Estimator :=
  {| states := states e; transition_counts := transition_counts e;
     state_counts := <[s := v]> (state_counts e); episodes := episodes e |}.

(** The estimator with [self.transition_counts[s][t]] set to [v]. *)
Definition put_transition_count (s t : string) (v : Z) (e : Estimator) : Estimator :=
  {| states := states e;
     transition_counts := <[s := <[t := v]> (transition_row e s)]> (transition_counts e);
     state_counts := state_counts e; episodes := episodes e |}.

(** The estimator after one iteration of the loop of [add_episode]. *)
Definition observed (e : Estimator) (p : string * string) : Estimator :=
  (observe_transition p.1 p.2 e).2.

(** The pairs [(episode[i], episode[i + 1])], in order. *)
Fixpoint adjacent_pairs (episode : list string) : list (string * string) :=
  match episode with
  | a :: (b :: _) as rest => (a, b) :: adjacent_pairs rest
  | _ => []
  end.

(** How often [s] is the origin of a pair, and how often [(s, t)] is a pair. *)
Definition origin_occurrences (ps : list (string * string)) (s : string) : Z :=
  Z.of_nat (length (filter (λ p, p.1 = s) ps)).

Definition pair_occurrences (ps : list (string * string)) (s t : string) : Z :=
  Z.of_nat (length (filter (λ p, p = (s, t)) ps)).

(** The relations between the counters and the state space that every
    method maintains. *)
Record counts_consistent (e : Estimator) : Prop := {
  totals_agree : ∀ s, state_count e s = outgoing_total e s;
  origins_known : dom (transition_counts e) ⊆ states e;
  destinations_known : ∀ s t, transition_count e s t ≠ 0 → t ∈ states e;
  counted_known : ∀ s, state_count e s ≠ 0 → s ∈ states e
}.

(** [states] is the set of labels of the retained episodes. *)
Definition labels_consistent (e : Estimator) : Prop :=
  ∀ s, s ∈ states e ↔ ∃ episode, episode ∈ episodes e ∧ s ∈ episode.

(** No key of a counter lies outside [states]: the counters hold no entry
    left behind by a read. *)
Record keys_known (e : Estimator) : Prop := {
  row_keys_known : ∀ s, dom (transition_row e s) ⊆ states e;
  count_keys_known : dom (state_counts e) ⊆ states e
}.

(** [e'] differs from [e] at most by entries that reads have created: the
    state space, the episodes and the value of every counter are the same. *)
Record quiet (e e' : Estimator) : Prop := {
  quiet_states : states e' = states e;
  quiet_episodes : episodes e' = episodes e;
  quiet_state_count : ∀ s, state_count e' s = state_count e s;
  quiet_transition_count : ∀ s t, transition_count e' s t = transition_count e s t
}.

(** [e'] is reached from the consistent estimator [e] by reads only. *)
Definition settled (e e' : Estimator) : Prop := quiet e e' ∧ counts_consistent e'.

(** The entry [transitions[t]] expected in the statistics of [s]. *)
Definition transition_stat_of (e : Estimator) (s t : string) : option TransitionStat :=
  if decide (t ∈ states e ∧ 0 < transition_count e s t)
  then Some (mkTransitionStat (transition_count e s t) (get_transition_probability s t e).1)
  else None.

(** [r] is the record expected for the state [s]. *)
Definition state_stat_of (e : Estimator) (s : string) (r : StateStat) : Prop :=
  total_occurrences r = state_count e s ∧
  ∀ t, transitions r !! t = transition_stat_of e s t.

(** Every transition count lies between 0 and the count of its origin. *)
Definition counts_bounded (e : Estimator) : Prop :=
  ∀ s t, 0 ≤ transition_count e s t ≤ state_count e s.

(** Every state in [states] is an end of a transition that has been counted. *)
Definition endpoints_counted (e : Estimator) : Prop :=
  ∀ s, s ∈ states e →
       ∃ t, 0 < transition_count e s t ∨ 0 < transition_count e t s.

(** Every entry that is stored in a counter holds a positive count. *)
Record no_zero_entries (e : Estimator) : Prop := {
  state_keys_positive : ∀ s, s ∈ dom (state_counts e) → 0 < state_count e s;
  origin_keys_positive : ∀ s, s ∈ dom (transition_counts e) → 0 < state_count e s;
  row_keys_positive : ∀ s t, t ∈ dom (transition_row e s) → 0 < transition_count e s t
}.

(** The sum of the counts of the entries of a nested [transitions] map. *)
Definition transitions_total (tr : gmap string TransitionStat) : Z :=
  map_fold (λ _ ts acc, count ts + acc) 0 tr.

(** The line written for the destination [t] in the block of the origin [s],
    if any, as a function of the counters. *)
Definition summary_to_line (e : Estimator) (s t : string) : option Line :=
  if 0 <? transition_count e s t
  then Some (LTo t (get_transition_probability s t e).1 (transition_count e s t))
  else None.

(** The block written for the origin [s], with the destinations visited in
    the order [order]. *)
Definition summary_block (e : Estimator) (order : list string) (s : string) : list Line :=
  if state_count e s =? 0 then []
  else LFrom s (state_count e s) :: omap (summary_to_line e s) order.

(** The whole report as a function of the state space, the number of
    retained episodes and the counters. *)
Definition summary_lines (e : Estimator) : list Line :=
  let order := merge_sort String.le (elements (states e)) in
  [LStateSpace order; LTotalEpisodes (length (episodes e)); LHeading; LRule]
  ++ concat (summary_block e order <$> order).

(** The origins of the blocks of a report, with the counts shown for them. *)
Definition from_lines (out : list Line) : list (string * Z) :=
  omap (λ line, match line with LFrom s c => Some (s, c) | _ => None end) out.

(** Every destination key of every row of [transition_counts] is in [states]. *)
Definition rows_known (e : Estimator) : Prop :=
  ∀ s, dom (transition_row e s) ⊆ states e.

(** [e'] has the state space of [e] and all its destination keys in it. *)
Definition tidy (e e' : Estimator) : Prop := states e' = states e ∧ rows_known e'.

(** The call [c] made on [e] creates no destination key outside [states]:
    every call does, except [get_transition_probability(a, b)] with
    [state_counts[a]] not zero and [b] not in [states]. *)
Definition safe_call (e : Estimator) (c : Call) : bool :=
  match c with
  | CallGetTransitionProbability a b => (state_count e a =? 0) || bool_decide (b ∈ states e)
  | _ => true
  end.

(** Every call of the sequence [cs], made in turn from [e], is safe. *)
Fixpoint keys_safe (e : Estimator) (cs : list Call) : bool :=
  match cs with
  | [] => true
  | c :: cs' => safe_call e c && keys_safe (after_call e c) cs'
  end.

(** * Part II: proofs *)

(** ** The program on small inputs *)

Example summary_of_the_example_data :
  (main init).1.1.1
  = [LStateSpace ["Chat"; "Coffee"; "Computer"; "Home"]; LTotalEpisodes 3; LHeading; LRule;
     LFrom "Chat" 5; LTo "Chat" (2 # 5) 2; LTo "Coffee" (2 # 5) 2; LTo "Computer" (1 # 5) 1;
     LFrom "Coffee" 6; LTo "Chat" (2 # 6) 2; LTo "Coffee" (2 # 6) 2; LTo "Computer" (2 # 6) 2;
     LFrom "Computer" 7; LTo "Chat" (1 # 7) 1; LTo "Coffee" (1 # 7) 1;
     LTo "Computer" (4 # 7) 4; LTo "Home" (1 # 7) 1;
     LFrom "Home" 3; LTo "Coffee" (2 # 3) 2; LTo "Home" (1 # 3) 1].
Proof. by vm_compute. Qed.

Example statistics_of_a_short_episode :
  (get_state_statistics (ingest [["Home"; "Coffee"; "Chat"]])).1
  = {[ "Home" := mkStateStat 1 {[ "Coffee" := mkTransitionStat 1 (1 # 1) ]};
       "Coffee" := mkStateStat 1 {[ "Chat" := mkTransitionStat 1 (1 # 1) ]};
       "Chat" := mkStateStat 0 ∅ ]}.
Proof. by vm_compute. Qed.

Example matrix_of_a_short_episode :
  (get_transition_matrix (ingest [["Home"; "Coffee"]])).1
  = {[ "Home" := {[ "Home" := 0%Q; "Coffee" := (1 # 1)%Q ]};
       "Coffee" := {[ "Home" := 0%Q; "Coffee" := 0%Q ]} ]}.
Proof. by vm_compute. Qed.

Example short_episode_scenario :
  state_count (ingest [["Home"; "Coffee"; "Chat"]]) "Home" = 1 ∧
  state_count (ingest [["Home"; "Coffee"; "Chat"]]) "Coffee" = 1 ∧
  transition_count (ingest [["Home"; "Coffee"; "Chat"]]) "Home" "Coffee" = 1 ∧
  (get_transition_probability "Home" "Coffee" (ingest [["Home"; "Coffee"; "Chat"]])).1
    = (1 # 1)%Q ∧
  (get_transition_probability "Chat" "Home" (ingest [["Home"; "Coffee"; "Chat"]])).1 = 0%Q.
Proof. by vm_compute. Qed.

(** A read of a missing key stores the default under it. *)
Example read_creates_entry :
  state_counts (get_transition_probability "X" "Y" init).2 = {[ "X" := 0 ]} ∧
  transition_counts (get_transition_probability "X" "Y" init).2 = ∅.
Proof. by vm_compute. Qed.

(** ** Facts about [defaultdict] *)

Section defaultdict_facts.
Context `{Countable K} {V : Type}.
Implicit Types (d : gmap K V) (k : K) (dflt v : V).

Lemma dd_getitem_value dflt k d : (dd_getitem dflt k d).1 = dd_value dflt k d.
Proof. unfold dd_getitem, dd_value. by destruct (d !! k). Qed.

Lemma dd_getitem_store dflt k d :
  (dd_getitem dflt k d).2 = <[k := dd_value dflt k d]> d.
Proof.
  unfold dd_getitem, dd_value.
  destruct (d !! k) as [v|] eqn:E; simpl; [by rewrite insert_id | done].
Qed.

Lemma dd_value_insert dflt k k' v d :
  dd_value dflt k' (<[k := v]> d) = if decide (k = k') then v else dd_value dflt k' d.
Proof. unfold dd_value. rewrite lookup_insert. by case_decide. Qed.

Lemma dd_getitem_eq dflt k d :
  dd_getitem dflt k d = (dd_value dflt k d, <[k := dd_value dflt k d]> d).
Proof.
  rewrite (surjective_pairing (dd_getitem dflt k d)).
  by rewrite dd_getitem_value, dd_getitem_store.
Qed.

End defaultdict_facts.

(** ** Reads and writes of the counters *)

Lemma state_counts_get_eq s e :
  state_counts_get s e = (state_count e s, put_state_count s (state_count e s) e).
Proof. unfold state_counts_get. by rewrite dd_getitem_eq. Qed.

Lemma state_counts_incr_eq s e :
  state_counts_incr s e = (tt, put_state_count s (state_count e s + 1) e).
Proof.
  unfold state_counts_incr, put_state_count. rewrite dd_getitem_eq.
  by rewrite insert_insert_eq.
Qed.

Lemma transition_counts_get_eq s t e :
  transition_counts_get s t e
  = (transition_count e s t, put_transition_count s t (transition_count e s t) e).
Proof.
  unfold transition_counts_get, put_transition_count. rewrite !dd_getitem_eq.
  by rewrite insert_insert_eq.
Qed.

Lemma transition_counts_incr_eq s t e :
  transition_counts_incr s t e
  = (tt, put_transition_count s t (transition_count e s t + 1) e).
Proof.
  unfold transition_counts_incr, put_transition_count. rewrite !dd_getitem_eq.
  by rewrite !insert_insert_eq.
Qed.

Lemma state_count_put s v e s' :
  state_count (put_state_count s v e) s' = if decide (s = s') then v else state_count e s'.
Proof. apply dd_value_insert. Qed.

Lemma transition_row_put s t v e s' :
  transition_row (put_transition_count s t v e) s'
  = if decide (s = s') then <[t := v]> (transition_row e s) else transition_row e s'.
Proof. apply dd_value_insert. Qed.

Lemma transition_count_put s t v e s' t' :
  transition_count (put_transition_count s t v e) s' t'
  = if decide (s = s' ∧ t = t') then v else transition_count e s' t'.
Proof.
  unfold transition_count. rewrite transition_row_put.
  destruct (decide (s = s')) as [->|Hs].
  - rewrite dd_value_insert.
    destruct (decide (t = t')) as [Ht|Ht], (decide (s' = s' ∧ t = t')) as [Hd|Hd];
      try reflexivity; exfalso; intuition congruence.
  - destruct (decide (s = s' ∧ t = t')) as [Hd|Hd]; [exfalso; intuition congruence | done].
Qed.

(** ** Row sums *)

Lemma row_total_empty : row_total ∅ = 0.
Proof. apply map_fold_empty. Qed.

Lemma row_total_insert_fresh (row : gmap string Z) t v :
  row !! t = None → row_total (<[t := v]> row) = v + row_total row.
Proof.
  intros Hnone. unfold row_total.
  rewrite map_fold_insert_L; [done | intros; lia | done].
Qed.

Lemma row_total_insert (row : gmap string Z) t v :
  row_total (<[t := v]> row) = row_total row - dd_value 0 t row + v.
Proof.
  unfold dd_value. destruct (row !! t) as [x|] eqn:E; simpl.
  - rewrite <- (insert_delete_id row t x) at 2 by done.
    rewrite <- (insert_delete_eq row t v).
    rewrite !row_total_insert_fresh by apply lookup_delete_eq. lia.
  - rewrite row_total_insert_fresh by done. lia.
Qed.

Lemma outgoing_total_put s t v e s' :
  outgoing_total (put_transition_count s t v e) s'
  = if decide (s = s')
    then outgoing_total e s - transition_count e s t + v
    else outgoing_total e s'.
Proof.
  unfold outgoing_total. rewrite transition_row_put.
  case_decide; [apply row_total_insert | done].
Qed.

(** ** Loops *)

Lemma for_fold_fmap {A A' B} (h : A → A') (l : list A) (f : A' → B → State B) acc e :
  for_fold (h <$> l) f acc e = for_fold l (λ a, f (h a)) acc e.
Proof.
  revert acc e. induction l as [|a l IH]; intros acc e; simpl; [done|].
  unfold bind. destruct (f (h a) acc e) as [acc' e']. apply IH.
Qed.

(** The loop invariant rule: [P done acc e] relates the elements already
    visited, the accumulator and the estimator. *)
Lemma for_fold_rule {A B} (P : list A → B → Estimator → Prop)
    (l : list A) (body : A → B → State B) acc e :
  P [] acc e →
  (∀ done a acc' e', a ∈ l → P done acc' e' →
     P (done ++ [a]) (body a acc' e').1 (body a acc' e').2) →
  P l (for_fold l body acc e).1 (for_fold l body acc e).2.
Proof.
  intros Hinit Hstep.
  cut (∀ rest done acc' e', done ++ rest = l → P done acc' e' →
         P l (for_fold rest body acc' e').1 (for_fold rest body acc' e').2).
  { intros Hcut. by apply (Hcut l []). }
  induction rest as [|a rest IH]; intros done acc' e' Hl HP; simpl.
  - by rewrite app_nil_r in Hl; subst.
  - unfold bind. destruct (body a acc' e') as [acc'' e''] eqn:Hb.
    apply (IH (done ++ [a])).
    + by rewrite <- app_assoc.
    + specialize (Hstep done a acc' e'). rewrite Hb in Hstep. apply Hstep; [|done].
      subst l. apply elem_of_app. right. apply list_elem_of_here.
Qed.

(** ** [add_episode] as a fold over the adjacent pairs *)

Lemma episode_loop (episode : list string) e :
  (for_each (seq 0 (length episode - 1)) (λ i,
     match episode !! i, episode !! (i + 1)%nat with
     | Some state_from, Some state_to => observe_transition state_from state_to
     | _, _ => ret tt
     end) e).2
  = foldl observed e (adjacent_pairs episode).
Proof.
  revert e. induction episode as [|a rest IH]; intros e; [done|].
  destruct rest as [|b rest]; [done|].
  replace (length (a :: b :: rest) - 1)%nat with (S (length (b :: rest) - 1))
    by (simpl; lia).
  rewrite <- cons_seq, <- fmap_S_seq.
  unfold for_each in *. cbn [for_fold adjacent_pairs foldl]. unfold bind at 1.
  cbn [lookup list_lookup Nat.add].
  destruct (observe_transition a b e) as [[] e1] eqn:Hobs.
  rewrite for_fold_fmap. rewrite <- IH. unfold observed. simpl. rewrite Hobs. simpl.
  reflexivity.
Qed.

Lemma add_episode_pairs (episode : list string) e :
  (add_episode episode e).2
  = if (length episode <? 2)%nat then e
    else foldl observed (episodes_append episode e).2 (adjacent_pairs episode).
Proof.
  unfold add_episode. destruct (length episode <? 2)%nat; [done|].
  unfold bind at 1. simpl. apply episode_loop.
Qed.

(** ** The effect of one observed transition *)

Lemma observed_eq e a b :
  observed e (a, b)
  = put_state_count a (state_count e a + 1)
      (put_transition_count a b (transition_count e a b + 1)
         (states_add b (states_add a e).2).2).
Proof.
  unfold observed, observe_transition, bind. simpl.
  rewrite transition_counts_incr_eq. by rewrite state_counts_incr_eq.
Qed.

Lemma states_observed e a b :
  states (observed e (a, b)) = {[b]} ∪ ({[a]} ∪ states e).
Proof. by rewrite observed_eq. Qed.

Lemma episodes_observed e p : episodes (observed e p) = episodes e.
Proof. destruct p as [a b]. by rewrite observed_eq. Qed.

Lemma state_count_observed e a b s :
  state_count (observed e (a, b)) s
  = state_count e s + (if decide (a = s) then 1 else 0).
Proof.
  rewrite observed_eq, state_count_put.
  case_decide; [subst|]; change (state_count (put_transition_count _ _ _ _) ?x)
    with (state_count e x); lia.
Qed.

Lemma transition_count_observed e a b s t :
  transition_count (observed e (a, b)) s t
  = transition_count e s t + (if decide (a = s ∧ b = t) then 1 else 0).
Proof.
  rewrite observed_eq.
  change (transition_count (put_state_count _ _ ?x)) with (transition_count x).
  rewrite transition_count_put.
  change (transition_count (states_add _ _).2) with (transition_count e).
  destruct (decide (a = s ∧ b = t)) as [[-> ->]|Hd]; lia.
Qed.

Lemma outgoing_total_observed e a b s :
  outgoing_total (observed e (a, b)) s
  = outgoing_total e s + (if decide (a = s) then 1 else 0).
Proof.
  rewrite observed_eq.
  change (outgoing_total (put_state_count _ _ ?x)) with (outgoing_total x).
  rewrite outgoing_total_put.
  change (outgoing_total (states_add _ _).2) with (outgoing_total e).
  change (transition_count (states_add _ _).2) with (transition_count e).
  destruct (decide (a = s)) as [->|Hd]; lia.
Qed.

Lemma dom_transition_counts_observed e a b :
  dom (transition_counts (observed e (a, b))) = {[a]} ∪ dom (transition_counts e).
Proof. rewrite observed_eq. simpl. by rewrite dom_insert_L. Qed.

Lemma dom_state_counts_observed e a b :
  dom (state_counts (observed e (a, b))) = {[a]} ∪ dom (state_counts e).
Proof. rewrite observed_eq. simpl. by rewrite dom_insert_L. Qed.

Lemma dom_transition_row_observed e a b s :
  dom (transition_row (observed e (a, b)) s)
  = if decide (a = s) then {[b]} ∪ dom (transition_row e s)
    else dom (transition_row e s).
Proof.
  rewrite observed_eq.
  change (transition_row (put_state_count _ _ ?x)) with (transition_row x).
  rewrite transition_row_put.
  change (transition_row (states_add _ _).2) with (transition_row e).
  case_decide; [subst; by rewrite dom_insert_L | done].
Qed.

Lemma state_count_foldl_observed ps e s :
  state_count (foldl observed e ps) s = state_count e s + origin_occurrences ps s.
Proof.
  unfold origin_occurrences. revert e.
  induction ps as [|[a b] ps IH]; intros e; simpl; [lia|].
  rewrite IH, state_count_observed, filter_cons. simpl.
  destruct (decide (a = s)); simpl; lia.
Qed.

Lemma transition_count_foldl_observed ps e s t :
  transition_count (foldl observed e ps) s t
  = transition_count e s t + pair_occurrences ps s t.
Proof.
  unfold pair_occurrences. revert e.
  induction ps as [|[a b] ps IH]; intros e; simpl; [lia|].
  rewrite IH, transition_count_observed, filter_cons.
  destruct (decide (a = s ∧ b = t)) as [[-> ->]|Hd].
  - rewrite decide_True by done. simpl. lia.
  - rewrite decide_False by (intros [= -> ->]; tauto). lia.
Qed.

Lemma states_foldl_observed (episode : list string) e :
  states (foldl observed e (adjacent_pairs episode))
  = (if (length episode <? 2)%nat then ∅ else list_to_set episode) ∪ states e.
Proof.
  revert e. induction episode as [|a rest IH]; intros e; [set_solver|].
  destruct rest as [|b rest]; [set_solver|].
  change (adjacent_pairs (a :: b :: rest)) with ((a, b) :: adjacent_pairs (b :: rest)).
  cbn [foldl]. rewrite IH, states_observed.
  destruct rest as [|c rest]; simpl; set_solver.
Qed.

Lemma episodes_foldl_observed ps e : episodes (foldl observed e ps) = episodes e.
Proof.
  revert e. induction ps as [|p ps IH]; intros e; simpl; [done|].
  by rewrite IH, episodes_observed.
Qed.

(** ** Invariants *)

Lemma quiet_refl e : quiet e e.
Proof. by split. Qed.

Lemma quiet_trans e1 e2 e3 : quiet e1 e2 → quiet e2 e3 → quiet e1 e3.
Proof.
  intros [H1 H2 H3 H4] [K1 K2 K3 K4]. split; intros; congruence.
Qed.

Lemma counts_consistent_init : counts_consistent init.
Proof.
  by split.
Qed.

Lemma counts_consistent_observed e p :
  counts_consistent e → counts_consistent (observed e p).
Proof.
  destruct p as [a b]. intros [Htot Horg Hdst Hcnt]. split.
  - intros s. rewrite state_count_observed, outgoing_total_observed. by rewrite Htot.
  - rewrite dom_transition_counts_observed, states_observed. set_solver.
  - intros s t. rewrite transition_count_observed, states_observed.
    destruct (decide (a = s ∧ b = t)) as [[-> ->]|Hd]; [set_solver|].
    rewrite Z.add_0_r. intros Hne. specialize (Hdst s t Hne). set_solver.
  - intros s. rewrite state_count_observed, states_observed.
    destruct (decide (a = s)) as [->|Hd]; [set_solver|].
    rewrite Z.add_0_r. intros Hne. specialize (Hcnt s Hne). set_solver.
Qed.

Lemma counts_consistent_foldl_observed ps e :
  counts_consistent e → counts_consistent (foldl observed e ps).
Proof.
  revert e. induction ps as [|p ps IH]; intros e He; simpl; [done|].
  by apply IH, counts_consistent_observed.
Qed.

Lemma counts_consistent_add_episode episode e :
  counts_consistent e → counts_consistent (add_episode episode e).2.
Proof.
  intros He. rewrite add_episode_pairs.
  destruct (length episode <? 2)%nat; [done|].
  apply counts_consistent_foldl_observed. by destruct He.
Qed.

Lemma keys_known_init : keys_known init.
Proof. split; [intros s|]; set_solver. Qed.

Lemma keys_known_observed e p : keys_known e → keys_known (observed e p).
Proof.
  destruct p as [a b]. intros [Hrow Hcnt]. split.
  - intros s. rewrite dom_transition_row_observed, states_observed.
    specialize (Hrow s). case_decide; set_solver.
  - rewrite dom_state_counts_observed, states_observed. set_solver.
Qed.

Lemma keys_known_add_episode episode e :
  keys_known e → keys_known (add_episode episode e).2.
Proof.
  intros He. rewrite add_episode_pairs.
  destruct (length episode <? 2)%nat; [done|].
  assert (keys_known (episodes_append episode e).2) as He' by (by destruct He).
  revert He'. generalize (episodes_append episode e).2.
  induction (adjacent_pairs episode) as [|p ps IH]; intros e' He'; simpl; [done|].
  by apply IH, keys_known_observed.
Qed.

Lemma labels_consistent_init : labels_consistent init.
Proof.
  intros s. split; [set_solver|]. intros (episode & Hin & _). by apply elem_of_nil in Hin.
Qed.

Lemma labels_consistent_add_episode episode e :
  labels_consistent e → labels_consistent (add_episode episode e).2.
Proof.
  intros He. rewrite add_episode_pairs.
  destruct (length episode <? 2)%nat eqn:Hlen; [done|].
  intros s. rewrite states_foldl_observed, episodes_foldl_observed, Hlen. simpl.
  rewrite elem_of_union, elem_of_list_to_set, (He s). split.
  - intros [Hs|(ep & Hep & Hs)].
    + exists episode. split; [|done]. apply elem_of_app. right. apply list_elem_of_here.
    + exists ep. split; [|done]. apply elem_of_app. by left.
  - intros (ep & Hep & Hs). apply elem_of_app in Hep as [Hep|Hep].
    + right. by exists ep.
    + apply list_elem_of_singleton in Hep as ->. by left.
Qed.

Lemma labels_consistent_quiet e e' :
  quiet e e' → labels_consistent e → labels_consistent e'.
Proof.
  intros [Hst Hep _ _] He s. rewrite Hst, Hep. apply He.
Qed.

(** ** Queries *)

Lemma settled_refl e : counts_consistent e → settled e e.
Proof. split; [apply quiet_refl | done]. Qed.

Lemma quiet_put_state_count e s : quiet e (put_state_count s (state_count e s) e).
Proof.
  split; try done. intros s'. rewrite state_count_put. case_decide; by subst.
Qed.

Lemma quiet_put_transition_count e s t :
  quiet e (put_transition_count s t (transition_count e s t) e).
Proof.
  split; try done. intros s' t'. rewrite transition_count_put.
  destruct (decide (s = s' ∧ t = t')) as [[-> ->]|Hd]; done.
Qed.

Lemma settled_state_counts_get e0 e s :
  settled e0 e → settled e0 (state_counts_get s e).2.
Proof.
  intros [Hq [Htot Horg Hdst Hcnt]]. rewrite state_counts_get_eq. simpl.
  pose proof (quiet_put_state_count e s) as Hq'. split.
  - by eapply quiet_trans.
  - split; try done.
    + intros s'. rewrite (quiet_state_count _ _ Hq'). apply Htot.
    + intros s'. rewrite (quiet_state_count _ _ Hq'). apply Hcnt.
Qed.

Lemma settled_transition_counts_get e0 e s t :
  settled e0 e → s ∈ states e0 → (transition_counts_get s t e).1 = transition_count e0 s t ∧
  settled e0 (transition_counts_get s t e).2.
Proof.
  intros [Hq [Htot Horg Hdst Hcnt]] Hs. rewrite transition_counts_get_eq. simpl.
  split; [apply (quiet_transition_count _ _ Hq)|].
  pose proof (quiet_put_transition_count e s t) as Hq'. split.
  - by eapply quiet_trans.
  - split; try done.
    + intros s'. rewrite outgoing_total_put.
      change (state_count (put_transition_count _ _ _ _) ?x) with (state_count e x).
      rewrite Htot. case_decide; [subst|]; lia.
    + simpl. rewrite dom_insert_L. rewrite <- (quiet_states _ _ Hq) in Hs. set_solver.
    + intros s' t'. rewrite (quiet_transition_count _ _ Hq'). apply Hdst.
Qed.

Lemma get_transition_probability_eq a b e :
  get_transition_probability a b e
  = if state_count e a =? 0
    then (0%Q, put_state_count a (state_count e a) e)
    else ((inject_Z (transition_count e a b) / inject_Z (state_count e a))%Q,
          put_state_count a (state_count e a)
            (put_transition_count a b (transition_count e a b)
               (put_state_count a (state_count e a) e))).
Proof.
  unfold get_transition_probability, bind. rewrite state_counts_get_eq.
  destruct (state_count e a =? 0); [done|].
  rewrite transition_counts_get_eq, state_counts_get_eq.
  change (transition_count (put_state_count _ _ ?x)) with (transition_count x).
  change (state_count (put_transition_count _ _ _ ?x)) with (state_count x).
  by rewrite state_count_put, decide_True.
Qed.

(** The value [get_transition_probability] returns depends on the values of
    the counters only. *)
Lemma get_transition_probability_quiet_value e e' a b :
  quiet e e' →
  (get_transition_probability a b e').1 = (get_transition_probability a b e).1.
Proof.
  intros Hq. rewrite !get_transition_probability_eq.
  rewrite (quiet_state_count _ _ Hq), (quiet_transition_count _ _ Hq).
  by destruct (state_count e a =? 0).
Qed.

Lemma settled_get_transition_probability e0 e a b :
  settled e0 e →
  (get_transition_probability a b e).1 = (get_transition_probability a b e0).1 ∧
  settled e0 (get_transition_probability a b e).2.
Proof.
  intros He. split; [apply get_transition_probability_quiet_value, He|].
  unfold get_transition_probability, bind.
  pose proof (settled_state_counts_get e0 e a He) as H1.
  rewrite state_counts_get_eq in *. simpl in H1.
  destruct (state_count e a =? 0) eqn:Hc; [done|].
  apply Z.eqb_neq in Hc.
  assert (a ∈ states e0) as Ha.
  { rewrite <- (quiet_states _ _ (proj1 He)). by apply (counted_known _ (proj2 He)). }
  pose proof (settled_transition_counts_get e0 _ a b H1 Ha) as [_ H2].
  destruct (transition_counts_get a b _) as [cnt e2]. simpl in H2.
  pose proof (settled_state_counts_get e0 _ a H2) as H3.
  by destruct (state_counts_get a e2) as [tot e3].
Qed.

Lemma for_fold_settled {A B} e0 (l : list A) (body : A → B → State B) acc e :
  settled e0 e →
  (∀ a acc' e', a ∈ l → settled e0 e' → settled e0 (body a acc' e').2) →
  settled e0 (for_fold l body acc e).2.
Proof.
  intros He Hbody.
  apply (for_fold_rule (λ _ _ e', settled e0 e')); [done|].
  intros _ a acc' e' Ha He'. by apply Hbody.
Qed.

Lemma settled_get_transition_matrix e :
  counts_consistent e → settled e (get_transition_matrix e).2.
Proof.
  intros He. unfold get_transition_matrix, bind, get_states.
  apply for_fold_settled; [by apply settled_refl|].
  intros state_from matrix e1 _ He1.
  apply for_fold_settled; [done|].
  intros state_to matrix' e2 _ He2.
  pose proof (settled_get_transition_probability e e2 state_from state_to He2) as [_ H].
  by destruct (get_transition_probability state_from state_to e2).
Qed.

Lemma elem_of_sorted_states e s :
  s ∈ (sorted_states e).1 ↔ s ∈ states e.
Proof.
  unfold sorted_states, bind, get_states, ret. simpl.
  rewrite merge_sort_Permutation. apply elem_of_elements.
Qed.

Lemma sorted_states_unchanged e : (sorted_states e).2 = e.
Proof. done. Qed.

Lemma settled_print_summary e :
  counts_consistent e → settled e (print_summary e).2.
Proof.
  intros He. unfold print_summary, bind at 1 2 3.
  destruct (sorted_states e) as [space e1] eqn:Hs1.
  pose proof (sorted_states_unchanged e) as He1. rewrite Hs1 in He1. simpl in He1. subst e1.
  unfold episodes_len.
  destruct (sorted_states e) as [froms e1] eqn:Hs2.
  pose proof (elem_of_sorted_states e) as Hfroms. rewrite Hs2 in Hfroms. simpl in Hfroms.
  pose proof (sorted_states_unchanged e) as He1. rewrite Hs2 in He1. simpl in He1. subst e1.
  apply for_fold_settled; [by apply settled_refl|].
  intros state_from out e1 Hfrom He1. unfold bind at 1.
  pose proof (settled_state_counts_get e e1 state_from He1) as He2.
  destruct (state_counts_get state_from e1) as [c e2]. simpl in He2.
  destruct (c =? 0); [done|]. unfold bind at 1.
  pose proof (settled_state_counts_get e e2 state_from He2) as He3.
  destruct (state_counts_get state_from e2) as [observed_count e3]. simpl in He3.
  unfold bind at 1.
  destruct (sorted_states e3) as [tos e4] eqn:Hs3.
  pose proof (sorted_states_unchanged e3) as He4. rewrite Hs3 in He4. simpl in He4. subst e4.
  apply for_fold_settled; [done|].
  intros state_to out' e4 _ He4. unfold bind.
  pose proof (settled_get_transition_probability e e4 state_from state_to He4) as [_ He5].
  destruct (get_transition_probability state_from state_to e4) as [prob e5]. simpl in He5.
  pose proof (settled_transition_counts_get e e5 state_from state_to He5) as [_ He6].
  { by apply Hfroms. }
  destruct (transition_counts_get state_from state_to e5) as [cnt e6]. simpl in He6.
  by destruct (0 <? cnt).
Qed.

(** *** [get_state_statistics] *)

Lemma state_statistics_inner e0 e state :
  settled e0 e → state ∈ states e0 →
  let r := for_fold (elements (states e)) (λ next_state transitions,
      count <- transition_counts_get state next_state ;;
      prob <- get_transition_probability state next_state ;;
      if 0 <? count
      then ret (<[next_state := mkTransitionStat count prob]> transitions)
      else ret transitions) (∅ : gmap string TransitionStat) e in
  (∀ t, r.1 !! t = transition_stat_of e0 state t) ∧ settled e0 r.2.
Proof.
  intros He Hstate r.
  pose (P := λ (done : list string) (transitions : gmap string TransitionStat) e',
    (∀ t, transitions !! t =
       if decide (t ∈ done ∧ 0 < transition_count e0 state t)
       then Some (mkTransitionStat (transition_count e0 state t)
                    (get_transition_probability state t e0).1)
       else None) ∧ settled e0 e').
  cut (P (elements (states e)) r.1 r.2); [|apply for_fold_rule; unfold P].
  - intros [Htr He']. split; [|done]. intros t. rewrite Htr.
    unfold transition_stat_of. apply decide_ext.
    rewrite elem_of_elements, (quiet_states _ _ (proj1 He)). tauto.
  - split; [|done]. intros t. rewrite lookup_empty.
    rewrite decide_False; [done|]. intros [Hin _]. by apply elem_of_nil in Hin.
  - intros done a transitions e1 _ [Htr He1]. unfold bind.
    pose proof (settled_transition_counts_get e0 e1 state a He1 Hstate) as [Hcnt He2].
    destruct (transition_counts_get state a e1) as [cnt e2]. simpl in Hcnt, He2.
    pose proof (settled_get_transition_probability e0 e2 state a He2) as [Hprob He3].
    destruct (get_transition_probability state a e2) as [prob e3]. simpl in Hprob, He3.
    subst cnt prob.
    destruct (0 <? transition_count e0 state a) eqn:Hpos; simpl; (split; [|done]).
    + apply Z.ltb_lt in Hpos. intros t. destruct (decide (t = a)) as [->|Hne].
      * rewrite lookup_insert_eq, decide_True; [done|].
        split; [|done]. apply elem_of_app. right. apply list_elem_of_here.
      * rewrite lookup_insert_ne by done. rewrite Htr.
        apply decide_ext. rewrite elem_of_app, list_elem_of_singleton. tauto.
    + apply Z.ltb_ge in Hpos. intros t. rewrite Htr. apply decide_ext.
      rewrite elem_of_app, list_elem_of_singleton. split; [tauto|].
      intros [[Hin| ->] Hlt]; [tauto|lia].
Qed.

Lemma get_state_statistics_spec e :
  counts_consistent e →
  (∀ s, match (get_state_statistics e).1 !! s with
        | Some r => s ∈ states e ∧ state_stat_of e s r
        | None => s ∉ states e
        end) ∧
  settled e (get_state_statistics e).2.
Proof.
  intros He. unfold get_state_statistics, bind at 1, get_states at 1.
  pose (P := λ (done : list string) (stats : gmap string StateStat) e',
    (∀ s, match stats !! s with
          | Some r => s ∈ done ∧ state_stat_of e s r
          | None => s ∉ done
          end) ∧ settled e e').
  match goal with |- (∀ s, match ?r.1 !! s with _ => _ end) ∧ _ =>
    cut (P (elements (states e)) r.1 r.2); [|apply for_fold_rule; unfold P]
  end.
  - intros [Hst He']. split; [|done]. intros s. specialize (Hst s).
    destruct (_ !! s); by rewrite elem_of_elements in Hst.
  - split; [|by apply settled_refl]. intros s. rewrite lookup_empty. apply not_elem_of_nil.
  - intros done a stats e1 Ha [Hst He1]. apply elem_of_elements in Ha.
    match goal with |- context [(?b e1).1] => destruct (b e1) as [stats' e4] eqn:Hbody end.
    pose proof (settled_state_counts_get e e1 a He1) as He2.
    unfold bind at 1 in Hbody. rewrite state_counts_get_eq in Hbody, He2.
    unfold bind at 1, get_states at 1 in Hbody. unfold bind at 1 in Hbody.
    simpl in He2.
    pose proof (state_statistics_inner e _ a He2 Ha) as [Htr He3].
    simpl in Htr, He3, Hbody.
    destruct (for_fold _ _ _ _) as [tr e3]. simpl in Htr, He3.
    injection Hbody as <- <-. rewrite (quiet_state_count _ _ (proj1 He1)). simpl.
    split; [|done]. intros s. destruct (decide (s = a)) as [->|Hne].
    + rewrite lookup_insert_eq. split; [|by split].
      apply elem_of_app. right. apply list_elem_of_here.
    + rewrite lookup_insert_ne by done. specialize (Hst s).
      destruct (stats !! s) as [r|].
      * destruct Hst as [Hin Hr]. split; [|done]. apply elem_of_app. by left.
      * rewrite elem_of_app, list_elem_of_singleton. tauto.
Qed.

(** ** Sequences of calls *)

Lemma settled_after_call e c :
  counts_consistent e →
  match c with
  | CallAddEpisode _ => counts_consistent (after_call e c)
  | _ => settled e (after_call e c)
  end.
Proof.
  intros He. destruct c as [episode|a b| | |]; simpl.
  - by apply counts_consistent_add_episode.
  - by apply settled_get_transition_probability, settled_refl.
  - by apply settled_get_transition_matrix.
  - by apply get_state_statistics_spec.
  - by apply settled_print_summary.
Qed.

Lemma counts_consistent_after_call e c :
  counts_consistent e → counts_consistent (after_call e c).
Proof.
  intros He. pose proof (settled_after_call e c He) as H.
  destruct c; apply H.
Qed.

Lemma labels_consistent_after_call e c :
  counts_consistent e → labels_consistent e → labels_consistent (after_call e c).
Proof.
  intros He Hl. pose proof (settled_after_call e c He) as H.
  destruct c as [episode|a b| | |];
    [by apply labels_consistent_add_episode
    |apply (labels_consistent_quiet e); [apply H | done]..].
Qed.

Lemma after_calls_snoc cs c : after_calls (cs ++ [c]) = after_call (after_calls cs) c.
Proof. unfold after_calls. by rewrite foldl_app. Qed.

Lemma counts_consistent_after_calls cs : counts_consistent (after_calls cs).
Proof.
  induction cs as [|c cs IH] using rev_ind; [apply counts_consistent_init|].
  rewrite after_calls_snoc. by apply counts_consistent_after_call.
Qed.

Lemma labels_consistent_after_calls cs : labels_consistent (after_calls cs).
Proof.
  induction cs as [|c cs IH] using rev_ind; [apply labels_consistent_init|].
  rewrite after_calls_snoc.
  apply labels_consistent_after_call; [apply counts_consistent_after_calls | done].
Qed.

Lemma ingest_after_calls eps : ingest eps = after_calls (CallAddEpisode <$> eps).
Proof.
  unfold ingest, after_calls. generalize init.
  induction eps as [|episode eps IH]; intros e; simpl; [done|]. apply IH.
Qed.

Lemma ingest_snoc eps episode :
  ingest (eps ++ [episode]) = (add_episode episode (ingest eps)).2.
Proof. unfold ingest. by rewrite foldl_app. Qed.

Lemma keys_known_ingest eps : keys_known (ingest eps).
Proof.
  induction eps as [|episode eps IH] using rev_ind; [apply keys_known_init|].
  rewrite ingest_snoc. by apply keys_known_add_episode.
Qed.

(** ** Sums over the state space *)

Lemma Zsum_cons a l : Zsum (a :: l) = a + Zsum l.
Proof. done. Qed.

Lemma Qsum_cons a l : Qsum (a :: l) = (a + Qsum l)%Q.
Proof. done. Qed.

Lemma Zsum_override (f : string → Z) (i : string) (x : Z) (l : list string) :
  NoDup l →
  Zsum ((λ t, if decide (i = t) then x else f t) <$> l)
  = (if decide (i ∈ l) then x - f i else 0) + Zsum (f <$> l).
Proof.
  induction 1 as [|a l Hnotin Hnd IH].
  - rewrite decide_False by apply not_elem_of_nil. done.
  - rewrite !fmap_cons, !Zsum_cons, IH. destruct (decide (i = a)) as [->|Hne].
    + rewrite (decide_True (P := a ∈ a :: l)) by apply list_elem_of_here.
      rewrite (decide_False (P := a ∈ l)) by done. lia.
    + destruct (decide (i ∈ l)) as [Hin|Hin].
      * rewrite (decide_True (P := i ∈ a :: l)) by (by apply list_elem_of_further). lia.
      * rewrite (decide_False (P := i ∈ a :: l)); [lia|]. rewrite elem_of_cons. tauto.
Qed.

(** Summing a row over a set that contains every destination with a
    non-zero count gives the sum of all entries of the row. *)
Lemma Zsum_row_cover (row : gmap string Z) (X : gset string) :
  (∀ t, dd_value 0 t row ≠ 0 → t ∈ X) →
  Zsum ((λ t, dd_value 0 t row) <$> elements X) = row_total row.
Proof.
  induction row as [|i x row Hnone _ IH] using map_first_key_ind; intros Hcover.
  - rewrite row_total_empty. induction (elements X) as [|a l IHl]; [done|].
    rewrite fmap_cons, Zsum_cons, IHl. unfold dd_value. by rewrite lookup_empty.
  - rewrite row_total_insert_fresh by done.
    assert (dd_value 0 i row = 0) as Hi by (unfold dd_value; by rewrite Hnone).
    rewrite <- IH.
    + assert ((λ t, dd_value 0 t (<[i:=x]> row)) <$> elements X
              = (λ t, if decide (i = t) then x else dd_value 0 t row) <$> elements X)
        as -> by (apply list_fmap_ext; intros; apply dd_value_insert).
      rewrite Zsum_override by apply NoDup_elements. rewrite Hi.
      destruct (decide (i ∈ elements X)) as [Hin|Hin]; [lia|].
      destruct (decide (x = 0)) as [->|Hx]; [lia|]. exfalso. apply Hin.
      apply elem_of_elements, Hcover. by rewrite dd_value_insert, decide_True.
    + intros t Ht. apply Hcover. rewrite dd_value_insert.
      destruct (decide (i = t)) as [->|Hne]; [congruence | done].
Qed.

Lemma Qsum_ratio (f : string → Z) (n : Z) (l : list string) :
  n ≠ 0 →
  (Qsum ((λ t, inject_Z (f t) / inject_Z n) <$> l) == inject_Z (Zsum (f <$> l)) / inject_Z n)%Q.
Proof.
  intros Hn.
  assert (¬ (inject_Z n == 0)%Q) as Hn'.
  { unfold Qeq. simpl. lia. }
  induction l as [|a l IH].
  - unfold Qdiv. cbn [fmap list_fmap Qsum foldr Zsum]. by rewrite Qmult_0_l.
  - rewrite !fmap_cons, Qsum_cons, Zsum_cons, IH, inject_Z_plus. by field.
Qed.

(** ** Further facts about ingestion and about rows *)

Lemma episodes_ingest (eps : list (list string)) :
  episodes (ingest eps) = filter (λ episode, (2 ≤ length episode)%nat) eps.
Proof.
  induction eps as [|episode eps IH] using rev_ind; [done|].
  rewrite ingest_snoc, add_episode_pairs, filter_app, filter_cons, filter_nil.
  destruct (length episode <? 2)%nat eqn:Hlen.
  - apply Nat.ltb_lt in Hlen. rewrite decide_False by lia. by rewrite app_nil_r.
  - apply Nat.ltb_ge in Hlen. rewrite decide_True by lia.
    rewrite episodes_foldl_observed. simpl. by rewrite IH.
Qed.

Lemma transition_count_origin_key e s t :
  transition_count e s t ≠ 0 → s ∈ dom (transition_counts e).
Proof.
  intros Hne. apply elem_of_dom.
  destruct (transition_counts e !! s) as [row|] eqn:Hrow; [done|].
  exfalso. apply Hne. unfold transition_count, transition_row, dd_value.
  rewrite Hrow. simpl. by rewrite lookup_empty.
Qed.

Lemma state_count_add_episode episode e s :
  state_count (add_episode episode e).2 s
  = state_count e s + origin_occurrences (adjacent_pairs episode) s.
Proof.
  rewrite add_episode_pairs. destruct (length episode <? 2)%nat eqn:Hlen.
  - destruct episode as [|a [|b rest]]; [unfold origin_occurrences; simpl; lia..|done].
  - by rewrite state_count_foldl_observed.
Qed.

Lemma transition_count_add_episode episode e s t :
  transition_count (add_episode episode e).2 s t
  = transition_count e s t + pair_occurrences (adjacent_pairs episode) s t.
Proof.
  rewrite add_episode_pairs. destruct (length episode <? 2)%nat eqn:Hlen.
  - destruct episode as [|a [|b rest]]; [unfold pair_occurrences; simpl; lia..|done].
  - by rewrite transition_count_foldl_observed.
Qed.

Lemma ingest_twice_counts (episode : list string) :
  (∀ s, state_count (ingest [episode; episode]) s = 2 * state_count (ingest [episode]) s) ∧
  (∀ s t, transition_count (ingest [episode; episode]) s t
          = 2 * transition_count (ingest [episode]) s t).
Proof.
  unfold ingest. cbn [foldl]. split.
  - intros s. rewrite !state_count_add_episode.
    change (state_count init s) with 0. lia.
  - intros s t. rewrite !transition_count_add_episode.
    change (transition_count init s t) with 0. lia.
Qed.

Lemma row_probabilities_value e s :
  counts_consistent e →
  (row_probabilities s e).1
  = (λ t, (get_transition_probability s t e).1) <$> elements (states e).
Proof.
  intros He. unfold row_probabilities, bind at 1, get_states at 1.
  pose (P := λ (done : list string) (row : list Q) e',
    row = (λ t, (get_transition_probability s t e).1) <$> done ∧ settled e e').
  match goal with |- ?r.1 = _ =>
    cut (P (elements (states e)) r.1 r.2); [by intros [? _]|apply for_fold_rule; unfold P]
  end.
  - split; [done | by apply settled_refl].
  - intros done t row e1 _ [-> He1]. unfold bind.
    pose proof (settled_get_transition_probability e e1 s t He1) as [Hp He2].
    destruct (get_transition_probability s t e1) as [p e2]. simpl in *.
    split; [|done]. by rewrite fmap_app, Hp.
Qed.

(** Over the states of a consistent estimator the counts of the transitions
    out of [s] add up to the sum of the whole row of [s]. *)
Lemma outgoing_total_over_states e s :
  counts_consistent e →
  Zsum ((λ t, transition_count e s t) <$> elements (states e)) = outgoing_total e s.
Proof.
  intros He. unfold transition_count, outgoing_total. apply Zsum_row_cover.
  intros t Ht. by apply (destinations_known _ He s).
Qed.

(** ** Destination keys under queries *)

Lemma tidy_state_counts_get e0 e s : tidy e0 e → tidy e0 (state_counts_get s e).2.
Proof. intros [Hst Hrows]. by rewrite state_counts_get_eq. Qed.

Lemma tidy_transition_counts_get e0 e s t :
  tidy e0 e → t ∈ states e0 → tidy e0 (transition_counts_get s t e).2.
Proof.
  intros [Hst Hrows] Ht. rewrite transition_counts_get_eq. split; [done|].
  intros s'. simpl. rewrite transition_row_put.
  change (states (put_transition_count _ _ _ e)) with (states e).
  destruct (decide (s = s')) as [->|Hne]; [|apply Hrows].
  rewrite dom_insert_L, Hst. specialize (Hrows s'). set_solver.
Qed.

Lemma tidy_get_transition_probability e0 e a b :
  tidy e0 e → state_count e a = 0 ∨ b ∈ states e0 →
  tidy e0 (get_transition_probability a b e).2.
Proof.
  intros He Hsafe. unfold get_transition_probability, bind.
  pose proof (tidy_state_counts_get e0 e a He) as H1.
  rewrite state_counts_get_eq in *. simpl in H1.
  destruct (state_count e a =? 0) eqn:Hz; [done|].
  apply Z.eqb_neq in Hz. destruct Hsafe as [Hzero|Hb]; [done|].
  pose proof (tidy_transition_counts_get e0 _ a b H1 Hb) as H2.
  destruct (transition_counts_get a b _) as [cnt e2]. simpl in H2.
  pose proof (tidy_state_counts_get e0 e2 a H2) as H3.
  by destruct (state_counts_get a e2) as [tot e3].
Qed.

Lemma for_fold_tidy {A B} e0 (l : list A) (body : A → B → State B) acc e :
  tidy e0 e →
  (∀ a acc' e', a ∈ l → tidy e0 e' → tidy e0 (body a acc' e').2) →
  tidy e0 (for_fold l body acc e).2.
Proof.
  intros He Hbody.
  apply (for_fold_rule (λ _ _ e', tidy e0 e')); [done|].
  intros _ a acc' e' Ha He'. by apply Hbody.
Qed.

Lemma tidy_get_transition_matrix e : rows_known e → tidy e (get_transition_matrix e).2.
Proof.
  intros He. unfold get_transition_matrix, bind, get_states.
  apply for_fold_tidy; [done|].
  intros state_from matrix e1 _ He1.
  apply for_fold_tidy; [done|].
  intros state_to matrix' e2 Hto He2.
  rewrite elem_of_elements, (proj1 He1) in Hto.
  pose proof (tidy_get_transition_probability e e2 state_from state_to He2 (or_intror Hto)).
  by destruct (get_transition_probability state_from state_to e2).
Qed.

Lemma tidy_get_state_statistics e : rows_known e → tidy e (get_state_statistics e).2.
Proof.
  intros He. unfold get_state_statistics, bind at 1, get_states at 1.
  apply for_fold_tidy; [done|].
  intros state stats e1 _ He1. unfold bind at 1.
  pose proof (tidy_state_counts_get e e1 state He1) as He2.
  destruct (state_counts_get state e1) as [total e2]. simpl in He2.
  unfold bind at 1, get_states at 1. unfold bind at 1.
  match goal with |- tidy e (let (_, _) := ?r in _).2 =>
    assert (tidy e r.2) as He3; [|by destruct r]
  end.
  apply for_fold_tidy; [done|].
  intros next_state transitions e3 Hnext He3. unfold bind.
  rewrite elem_of_elements, (proj1 He2) in Hnext.
  pose proof (tidy_transition_counts_get e e3 state next_state He3 Hnext) as He4.
  destruct (transition_counts_get state next_state e3) as [cnt e4]. simpl in He4.
  pose proof (tidy_get_transition_probability e e4 state next_state He4 (or_intror Hnext))
    as He5.
  destruct (get_transition_probability state next_state e4) as [prob e5]. simpl in He5.
  by destruct (0 <? cnt).
Qed.

Lemma tidy_print_summary e : rows_known e → tidy e (print_summary e).2.
Proof.
  intros He. unfold print_summary, bind at 1 2 3.
  unfold sorted_states at 1 2, episodes_len, bind at 1 2, get_states at 1 2, ret at 1 2.
  apply for_fold_tidy; [done|].
  intros state_from out e1 _ He1. unfold bind at 1.
  pose proof (tidy_state_counts_get e e1 state_from He1) as He2.
  destruct (state_counts_get state_from e1) as [c e2]. simpl in He2.
  destruct (c =? 0); [done|]. unfold bind at 1.
  pose proof (tidy_state_counts_get e e2 state_from He2) as He3.
  destruct (state_counts_get state_from e2) as [observed_count e3]. simpl in He3.
  unfold bind at 1, sorted_states, bind at 1, get_states, ret at 1.
  apply for_fold_tidy; [done|].
  intros state_to out' e4 Hto He4. unfold bind.
  rewrite merge_sort_Permutation, elem_of_elements, (proj1 He3) in Hto.
  pose proof (tidy_get_transition_probability e e4 state_from state_to He4 (or_intror Hto))
    as He5.
  destruct (get_transition_probability state_from state_to e4) as [prob e5]. simpl in He5.
  pose proof (tidy_transition_counts_get e e5 state_from state_to He5 Hto) as He6.
  destruct (transition_counts_get state_from state_to e5) as [cnt e6]. simpl in He6.
  by destruct (0 <? cnt).
Qed.

Lemma rows_known_after_call e c :
  rows_known e → safe_call e c = true → rows_known (after_call e c).
Proof.
  intros He Hsafe. destruct c as [episode|a b| | |]; simpl in *.
  - rewrite add_episode_pairs. destruct (length episode <? 2)%nat; [done|].
    assert (rows_known (episodes_append episode e).2) as He' by done.
    revert He'. generalize (episodes_append episode e).2.
    induction (adjacent_pairs episode) as [|[x y] ps IH]; intros e' He'; simpl; [done|].
    apply IH. intros s. rewrite dom_transition_row_observed, states_observed.
    specialize (He' s). case_decide; set_solver.
  - apply (tidy_get_transition_probability e); [done|].
    apply orb_true_iff in Hsafe as [Hz|Hb]; [left; by apply Z.eqb_eq | right].
    by apply bool_decide_eq_true in Hb.
  - by apply tidy_get_transition_matrix.
  - by apply tidy_get_state_statistics.
  - by apply tidy_print_summary.
Qed.

Lemma rows_known_foldl_after_call cs e :
  rows_known e → keys_safe e cs = true → rows_known (foldl after_call e cs).
Proof.
  revert e. induction cs as [|c cs IH]; intros e He Hsafe; simpl in *; [done|].
  apply andb_true_iff in Hsafe as [Hc Hcs].
  apply IH; [by apply rows_known_after_call | done].
Qed.

(** The query that is not safe: it creates the key [b] in the row of [a]. *)
Lemma unsafe_query_creates_key e a b :
  state_count e a ≠ 0 →
  states (get_transition_probability a b e).2 = states e ∧
  b ∈ dom (transition_row (get_transition_probability a b e).2 a) ∧
  transition_count (get_transition_probability a b e).2 a b = transition_count e a b.
Proof.
  intros Hne. rewrite get_transition_probability_eq.
  apply Z.eqb_neq in Hne. rewrite Hne. simpl. split; [done|].
  change (transition_row (put_state_count _ _ ?x)) with (transition_row x).
  change (transition_count (put_state_count _ _ ?x)) with (transition_count x).
  rewrite transition_row_put, decide_True by done.
  rewrite transition_count_put, decide_True by done.
  split; [|done]. rewrite dom_insert_L. set_solver.
Qed.

(** * Part III: the claims of the specification *)

(** C1, as the specification states it, fails: on the three example episodes
    the estimate of Home to Coffee is not 3/4 and the estimate of Coffee to
    Chat is not 3/8. *)
Lemma example_probabilities_not_as_specified :
  ¬ ((get_transition_probability "Home" "Coffee" (ingest example_episodes)).1 == 3 # 4)%Q ∧
  ¬ ((get_transition_probability "Coffee" "Chat" (ingest example_episodes)).1 == 3 # 8)%Q.
Proof. split; vm_compute; discriminate. Qed.

(** C1 (amended): on the three example episodes [Home] is the origin of three
    transitions, two of them to [Coffee], and [Coffee] is the origin of six,
    two of them to [Chat]; the estimates are 2/3 (printed 0.667) and
    2/6 = 1/3 (printed 0.333), both right after ingestion and at the place
    where the script queries them. *)
Theorem example_probabilities :
  state_count (ingest example_episodes) "Home" = 3 ∧
  transition_count (ingest example_episodes) "Home" "Coffee" = 2 ∧
  state_count (ingest example_episodes) "Coffee" = 6 ∧
  transition_count (ingest example_episodes) "Coffee" "Chat" = 2 ∧
  ((get_transition_probability "Home" "Coffee" (ingest example_episodes)).1 == 2 # 3)%Q ∧
  ((get_transition_probability "Coffee" "Chat" (ingest example_episodes)).1 == 1 # 3)%Q ∧
  ((main init).1.1.2 == 2 # 3)%Q ∧
  ((main init).1.2 == 1 # 3)%Q.
Proof. repeat split; vm_compute; reflexivity. Qed.

(** C2: after any sequence of [add_episode] calls on a fresh estimator, and
    also when queries are interleaved, the count of every state as an origin
    is the sum of the counts of its outgoing transitions over all
    destinations: the sum of the whole row of the state, which is also the
    sum over the destinations in [states].  An ingestion is the fold of [observed] over the adjacent
    pairs of the episode, and one observed transition adds exactly one to the
    count of its origin and exactly one to the count of its pair, and nothing
    to any other counter. *)
Theorem state_count_is_outgoing_total :
  (∀ (eps : list (list string)) (s : string),
     state_count (ingest eps) s = outgoing_total (ingest eps) s) ∧
  (∀ (cs : list Call) (s : string),
     state_count (after_calls cs) s = outgoing_total (after_calls cs) s) ∧
  (∀ (eps : list (list string)) (s : string),
     state_count (ingest eps) s
     = Zsum ((λ t, transition_count (ingest eps) s t) <$> elements (states (ingest eps)))) ∧
  (∀ (e : Estimator) (a b s t : string),
     state_count (observed e (a, b)) s
       = state_count e s + (if decide (a = s) then 1 else 0) ∧
     transition_count (observed e (a, b)) s t
       = transition_count e s t + (if decide (a = s ∧ b = t) then 1 else 0)) ∧
  (∀ (episode : list string) (e : Estimator),
     (add_episode episode e).2
     = if (length episode <? 2)%nat then e
       else foldl observed (episodes_append episode e).2 (adjacent_pairs episode)).
Proof.
  split; [|split; [|split; [|split]]].
  - intros eps s. rewrite ingest_after_calls.
    apply (totals_agree _ (counts_consistent_after_calls _)).
  - intros cs s. apply (totals_agree _ (counts_consistent_after_calls _)).
  - intros eps s. rewrite ingest_after_calls.
    pose proof (counts_consistent_after_calls (CallAddEpisode <$> eps)) as Hc.
    rewrite outgoing_total_over_states by done. apply (totals_agree _ Hc).
  - intros e a b s t. split.
    + apply state_count_observed.
    + apply transition_count_observed.
  - apply add_episode_pairs.
Qed.

(** C3: after any sequence of calls on a fresh estimator, for a state [s]
    that has been counted as an origin, the probabilities
    [get_transition_probability(s, t)] over all [t] in [states] add up to 1,
    as rational numbers. *)
Theorem row_sums_to_one (cs : list Call) (s : string) :
  0 < state_count (after_calls cs) s →
  (Qsum (row_probabilities s (after_calls cs)).1 == 1)%Q.
Proof.
  intros Hpos. pose proof (counts_consistent_after_calls cs) as Hc.
  set (e := after_calls cs) in *.
  rewrite row_probabilities_value by done.
  assert ((λ t, (get_transition_probability s t e).1) <$> elements (states e)
          = (λ t, (inject_Z (transition_count e s t) / inject_Z (state_count e s))%Q)
              <$> elements (states e)) as ->.
  { apply list_fmap_ext. intros _ t _. rewrite get_transition_probability_eq.
    destruct (state_count e s =? 0) eqn:Hz; [apply Z.eqb_eq in Hz; lia | done]. }
  rewrite Qsum_ratio by lia.
  rewrite outgoing_total_over_states, <- (totals_agree _ Hc) by done.
  field. unfold Qeq. simpl. lia.
Qed.

(** [Coffee] is counted twice as an origin after [Coffee, Coffee, Chat]. *)
Lemma row_sums_to_one_witness :
  0 < state_count (after_calls [CallAddEpisode ["Coffee"; "Coffee"; "Chat"]]) "Coffee" ∧
  (Qsum (row_probabilities "Coffee"
           (after_calls [CallAddEpisode ["Coffee"; "Coffee"; "Chat"]])).1 == 1)%Q.
Proof.
  split; [by vm_compute|].
  apply (row_sums_to_one [CallAddEpisode ["Coffee"; "Coffee"; "Chat"]] "Coffee").
  by vm_compute.
Defined.

(** C4: [get_transition_probability] returns 0 when the count of
    [state_from] as an origin is 0, and the quotient of the transition count
    by that count otherwise.  The value does not depend on [states]: it is
    the same whatever set stands in that field. *)
Theorem get_transition_probability_value (e : Estimator) (state_from state_to : string) :
  (get_transition_probability state_from state_to e).1
  = (if state_count e state_from =? 0 then 0%Q
     else (inject_Z (transition_count e state_from state_to)
           / inject_Z (state_count e state_from))%Q) ∧
  ∀ X : gset string,
    (get_transition_probability state_from state_to
       {| states := X; transition_counts := transition_counts e;
          state_counts := state_counts e; episodes := episodes e |}).1
    = (get_transition_probability state_from state_to e).1.
Proof.
  split.
  - rewrite get_transition_probability_eq. by destruct (state_count e state_from =? 0).
  - intros X. rewrite !get_transition_probability_eq.
    unfold state_count, transition_count, transition_row. simpl.
    by destruct (dd_value 0 state_from (state_counts e) =? 0).
Qed.

(** C5: [add_episode] on an episode of length 0 or 1 changes no field of the
    estimator; in particular the episode is not appended to [episodes]. *)
Theorem add_episode_short (episode : list string) (e : Estimator) :
  (length episode = 0 ∨ length episode = 1)%nat →
  states (add_episode episode e).2 = states e ∧
  transition_counts (add_episode episode e).2 = transition_counts e ∧
  state_counts (add_episode episode e).2 = state_counts e ∧
  episodes (add_episode episode e).2 = episodes e.
Proof.
  intros Hlen. unfold add_episode.
  assert ((length episode <? 2)%nat = true) as -> by (apply Nat.ltb_lt; lia).
  done.
Qed.

(** An episode of length 1 ingested after the example data. *)
Lemma add_episode_short_witness :
  states (add_episode ["Home"] (ingest example_episodes)).2
    = states (ingest example_episodes) ∧
  transition_counts (add_episode ["Home"] (ingest example_episodes)).2
    = transition_counts (ingest example_episodes) ∧
  state_counts (add_episode ["Home"] (ingest example_episodes)).2
    = state_counts (ingest example_episodes) ∧
  episodes (add_episode ["Home"] (ingest example_episodes)).2
    = episodes (ingest example_episodes).
Proof.
  apply (add_episode_short ["Home"] (ingest example_episodes)).
  right. reflexivity.
Defined.

(** C6: for an episode of length at least 2, ingesting it twice into a fresh
    estimator gives every state count and every transition count twice the
    value one ingestion gives, and the same probability for every pair of
    states.  (A shorter episode leaves every counter at 0 both times.) *)
Theorem ingest_twice (episode : list string) :
  (2 ≤ length episode)%nat →
  (∀ s, state_count (ingest [episode; episode]) s = 2 * state_count (ingest [episode]) s) ∧
  (∀ s t, transition_count (ingest [episode; episode]) s t
          = 2 * transition_count (ingest [episode]) s t) ∧
  (∀ s t, ((get_transition_probability s t (ingest [episode; episode])).1
           == (get_transition_probability s t (ingest [episode])).1)%Q).
Proof.
  intros _. destruct (ingest_twice_counts episode) as [Hsc Htc].
  split; [done|]. split; [done|]. intros s t.
  rewrite !get_transition_probability_eq, Hsc, Htc.
  destruct (state_count (ingest [episode]) s =? 0) eqn:Hz.
  - apply Z.eqb_eq in Hz. rewrite Hz. simpl. reflexivity.
  - apply Z.eqb_neq in Hz.
    assert ((2 * state_count (ingest [episode]) s =? 0) = false) as ->
      by (apply Z.eqb_neq; lia).
    simpl. rewrite !inject_Z_mult. field. unfold Qeq. simpl. lia.
Qed.

(** The episode [Home, Coffee, Chat], of length 3, ingested twice. *)
Lemma ingest_twice_witness :
  (∀ s, state_count (ingest [["Home"; "Coffee"; "Chat"]; ["Home"; "Coffee"; "Chat"]]) s
        = 2 * state_count (ingest [["Home"; "Coffee"; "Chat"]]) s) ∧
  (∀ s t,
     transition_count (ingest [["Home"; "Coffee"; "Chat"]; ["Home"; "Coffee"; "Chat"]]) s t
     = 2 * transition_count (ingest [["Home"; "Coffee"; "Chat"]]) s t) ∧
  (∀ s t,
     ((get_transition_probability s t
         (ingest [["Home"; "Coffee"; "Chat"]; ["Home"; "Coffee"; "Chat"]])).1
      == (get_transition_probability s t (ingest [["Home"; "Coffee"; "Chat"]])).1)%Q).
Proof.
  apply (ingest_twice ["Home"; "Coffee"; "Chat"]). simpl. lia.
Defined.

(** C7: after any sequence of calls on a fresh estimator,
    [get_state_statistics] has an entry exactly for the states in [states];
    the entry of [s] reports [state_counts[s]] as [total_occurrences], and
    its [transitions] holds an entry exactly for the destinations [t] with
    [transition_counts[s][t] > 0], made of that count and of the value of
    [get_transition_probability(s, t)]. *)
Theorem state_statistics_report (cs : list Call) (s : string) :
  match (get_state_statistics (after_calls cs)).1 !! s with
  | Some r =>
      s ∈ states (after_calls cs) ∧
      total_occurrences r = state_count (after_calls cs) s ∧
      ∀ t : string,
        transitions r !! t
        = if decide (0 < transition_count (after_calls cs) s t)
          then Some {| count := transition_count (after_calls cs) s t;
                       probability :=
                         (get_transition_probability s t (after_calls cs)).1 |}
          else None
  | None => s ∉ states (after_calls cs)
  end.
Proof.
  pose proof (counts_consistent_after_calls cs) as Hc.
  destruct (get_state_statistics_spec _ Hc) as [Hstats _].
  specialize (Hstats s).
  destruct ((get_state_statistics (after_calls cs)).1 !! s) as [r|]; [|done].
  destruct Hstats as (Hs & Htotal & Htr). split; [done|]. split; [done|].
  intros t. rewrite Htr. unfold transition_stat_of. apply decide_ext.
  split; [tauto|]. intros Hpos. split; [|done].
  apply (destinations_known _ Hc s). lia.
Qed.

(** C8, as the specification states it, fails: after [A, B] is ingested, the
    query [get_transition_probability("A", "Z")] creates the entry
    [transition_counts["A"]["Z"] = 0], and ["Z"] is not in [states]. *)
Lemma query_leaves_unknown_destination :
  transition_counts
    (after_calls [CallAddEpisode ["A"; "B"]; CallGetTransitionProbability "A" "Z"]) !! "A"
    = Some {[ "B" := 1; "Z" := 0 ]} ∧
  "Z" ∈ dom (transition_row
    (after_calls [CallAddEpisode ["A"; "B"]; CallGetTransitionProbability "A" "Z"]) "A") ∧
  "Z" ∉ states
    (after_calls [CallAddEpisode ["A"; "B"]; CallGetTransitionProbability "A" "Z"]).
Proof.
  split; [|split].
  - by vm_compute.
  - apply elem_of_dom. exists 0. by vm_compute.
  - apply (bool_decide_unpack _). by vm_compute.
Qed.

(** C8 (amended): after every sequence of calls of the public methods,
    queries included, every origin key of [transition_counts] is in [states],
    and so are the origin and the destination of every pair whose count is
    not zero.  Every destination key is in [states] as well after every
    sequence of calls in which each [get_transition_probability(a, b)] is
    made with [state_counts[a]] equal to 0 or with [b] in [states]; that is
    so after [add_episode] calls alone, and the other three queries never
    matter.  The one call left out does break it: on a reachable estimator,
    [get_transition_probability(a, b)] with [state_counts[a]] not zero and
    [b] not in [states] leaves the entry [transition_counts[a][b] = 0], and
    [b] is still not in [states]. *)
Theorem transition_keys_known :
  (∀ cs : list Call,
     dom (transition_counts (after_calls cs)) ⊆ states (after_calls cs)) ∧
  (∀ (cs : list Call) (s t : string),
     transition_count (after_calls cs) s t ≠ 0 →
     s ∈ states (after_calls cs) ∧ t ∈ states (after_calls cs)) ∧
  (∀ (eps : list (list string)) (s : string),
     dom (transition_row (ingest eps) s) ⊆ states (ingest eps)) ∧
  (∀ (cs : list Call) (s : string),
     keys_safe init cs = true →
     dom (transition_row (after_calls cs) s) ⊆ states (after_calls cs)) ∧
  (∀ (cs : list Call) (a b : string),
     state_count (after_calls cs) a ≠ 0 →
     b ∉ states (after_calls cs) →
     b ∈ dom (transition_row (get_transition_probability a b (after_calls cs)).2 a) ∧
     transition_count (get_transition_probability a b (after_calls cs)).2 a b = 0 ∧
     b ∉ states (get_transition_probability a b (after_calls cs)).2).
Proof.
  split; [|split; [|split; [|split]]].
  - intros cs. apply (origins_known _ (counts_consistent_after_calls cs)).
  - intros cs s t Hne. pose proof (counts_consistent_after_calls cs) as Hc. split.
    + apply (origins_known _ Hc). by eapply transition_count_origin_key.
    + by apply (destinations_known _ Hc s).
  - intros eps s. apply (row_keys_known _ (keys_known_ingest eps)).
  - intros cs s Hsafe. by apply (rows_known_foldl_after_call cs init).
  - intros cs a b Ha Hb. pose proof (counts_consistent_after_calls cs) as Hc.
    destruct (unsafe_query_creates_key (after_calls cs) a b Ha) as (Hst & Hkey & Hcnt).
    split; [done|]. split; [|by rewrite Hst]. rewrite Hcnt.
    destruct (decide (transition_count (after_calls cs) a b = 0)) as [|Hne]; [done|].
    exfalso. by apply Hb, (destinations_known _ Hc a).
Qed.

(** A sequence with all five methods in which every call is safe: the
    queried destinations are in [states] or the queried origin was never
    counted. *)
Lemma transition_keys_known_witness :
  dom (transition_row
         (after_calls [CallAddEpisode ["A"; "B"]; CallGetTransitionProbability "A" "B";
                       CallGetTransitionProbability "Z" "Y"; CallGetTransitionMatrix;
                       CallGetStateStatistics; CallPrintSummary;
                       CallGetTransitionProbability "B" "A"]) "A")
  ⊆ states
      (after_calls [CallAddEpisode ["A"; "B"]; CallGetTransitionProbability "A" "B";
                    CallGetTransitionProbability "Z" "Y"; CallGetTransitionMatrix;
                    CallGetStateStatistics; CallPrintSummary;
                    CallGetTransitionProbability "B" "A"]).
Proof.
  apply (proj1 (proj2 (proj2 (proj2 transition_keys_known)))
           [CallAddEpisode ["A"; "B"]; CallGetTransitionProbability "A" "B";
            CallGetTransitionProbability "Z" "Y"; CallGetTransitionMatrix;
            CallGetStateStatistics; CallPrintSummary;
            CallGetTransitionProbability "B" "A"] "A").
  by vm_compute.
Defined.

(** C9: after ingesting [Coffee, Coffee, Chat] into a fresh estimator the
    self-loop Coffee to Coffee and the transition Coffee to Chat are counted
    once each, [Coffee] is counted twice as an origin, and both probabilities
    are 1/2. *)
Theorem self_loop_scenario :
  let e := ingest [["Coffee"; "Coffee"; "Chat"]] in
  transition_count e "Coffee" "Coffee" = 1 ∧
  transition_count e "Coffee" "Chat" = 1 ∧
  state_count e "Coffee" = 2 ∧
  ((get_transition_probability "Coffee" "Coffee" e).1 == 1 # 2)%Q ∧
  ((get_transition_probability "Coffee" "Chat" e).1 == 1 # 2)%Q.
Proof. repeat split; vm_compute; reflexivity. Qed.

(** C10: after any sequence of [add_episode] calls on a fresh estimator,
    [states] is exactly the set of the labels that occur in the retained
    episodes, and the retained episodes are the ingested episodes of length
    at least 2, in order. *)
Theorem states_are_episode_labels (eps : list (list string)) :
  (∀ s : string,
     s ∈ states (ingest eps) ↔ ∃ episode, episode ∈ episodes (ingest eps) ∧ s ∈ episode) ∧
  episodes (ingest eps) = filter (λ episode, (2 ≤ length episode)%nat) eps.
Proof.
  split; [|apply episodes_ingest].
  rewrite ingest_after_calls. apply labels_consistent_after_calls.
Qed.

(** * Part IV: further properties of the program *)

(** ** Bounds on the counters *)

Lemma counts_bounded_init : counts_bounded init.
Proof. intros s t. by vm_compute. Qed.

Lemma counts_bounded_observed e p : counts_bounded e → counts_bounded (observed e p).
Proof.
  destruct p as [a b]. intros He s t. specialize (He s t).
  rewrite transition_count_observed, state_count_observed.
  destruct (decide (a = s ∧ b = t)) as [[-> ->]|Hd].
  - rewrite decide_True by done. lia.
  - destruct (decide (a = s)); lia.
Qed.

Lemma counts_bounded_add_episode episode e :
  counts_bounded e → counts_bounded (add_episode episode e).2.
Proof.
  intros He. rewrite add_episode_pairs.
  destruct (length episode <? 2)%nat; [done|].
  assert (counts_bounded (episodes_append episode e).2) as He' by done.
  revert He'. generalize (episodes_append episode e).2.
  induction (adjacent_pairs episode) as [|p ps IH]; intros e' He'; simpl; [done|].
  by apply IH, counts_bounded_observed.
Qed.

Lemma counts_bounded_quiet e e' : quiet e e' → counts_bounded e → counts_bounded e'.
Proof.
  intros Hq He s t.
  rewrite (quiet_transition_count _ _ Hq), (quiet_state_count _ _ Hq). apply He.
Qed.

(** A query leaves the state space, the episodes and the values of the
    counters of a reachable estimator as they are. *)
Lemma quiet_after_query cs c :
  match c with
  | CallAddEpisode _ => True
  | _ => quiet (after_calls cs) (after_call (after_calls cs) c)
  end.
Proof.
  pose proof (settled_after_call _ c (counts_consistent_after_calls cs)) as H.
  destruct c; [done|apply H..].
Qed.

Lemma counts_bounded_after_calls cs : counts_bounded (after_calls cs).
Proof.
  induction cs as [|c cs IH] using rev_ind; [apply counts_bounded_init|].
  rewrite after_calls_snoc. pose proof (quiet_after_query cs c) as Hq.
  destruct c as [episode|a b| | |];
    [by apply counts_bounded_add_episode
    |by apply (counts_bounded_quiet (after_calls cs))..].
Qed.

Lemma inject_Z_pos n : 0 < n → (0 < inject_Z n)%Q.
Proof. intros Hn. change 0%Q with (inject_Z 0). by rewrite <- Zlt_Qlt. Qed.

(** X1: after any sequence of calls on a fresh estimator every value of
    [get_transition_probability] lies between 0 and 1. *)
Theorem probability_in_unit_interval (cs : list Call) (s t : string) :
  (0 <= (get_transition_probability s t (after_calls cs)).1 <= 1)%Q.
Proof.
  pose proof (counts_bounded_after_calls cs s t) as Hb.
  rewrite get_transition_probability_eq.
  destruct (state_count (after_calls cs) s =? 0) eqn:Hz; simpl.
  - split; by vm_compute.
  - apply Z.eqb_neq in Hz.
    assert (0 < inject_Z (state_count (after_calls cs) s))%Q as Hpos
      by (apply inject_Z_pos; lia).
    split.
    + apply Qle_shift_div_l; [done|]. rewrite Qmult_0_l.
      change 0%Q with (inject_Z 0). rewrite <- Zle_Qle. lia.
    + apply Qle_shift_div_r; [done|]. rewrite Qmult_1_l, <- Zle_Qle. lia.
Qed.

(** X2: after any sequence of calls on a fresh estimator, a query about a
    label that is not in [states], as origin or as destination, returns 0. *)
Theorem unseen_label_probability (cs : list Call) (s t : string) :
  s ∉ states (after_calls cs) ∨ t ∉ states (after_calls cs) →
  ((get_transition_probability s t (after_calls cs)).1 == 0)%Q.
Proof.
  intros Hunseen. pose proof (counts_consistent_after_calls cs) as Hc.
  rewrite get_transition_probability_eq.
  destruct (state_count (after_calls cs) s =? 0) eqn:Hz; simpl; [reflexivity|].
  apply Z.eqb_neq in Hz. destruct Hunseen as [Hs|Ht].
  - exfalso. by apply Hs, (counted_known _ Hc).
  - destruct (decide (transition_count (after_calls cs) s t = 0)) as [->|Hne].
    + unfold Qdiv. by rewrite Qmult_0_l.
    + exfalso. by apply Ht, (destinations_known _ Hc s).
Qed.

(** [Work] is neither an origin nor a destination of the only episode. *)
Lemma unseen_label_probability_witness :
  ((get_transition_probability "Home" "Work"
      (after_calls [CallAddEpisode ["Home"; "Coffee"]])).1 == 0)%Q.
Proof.
  apply (unseen_label_probability [CallAddEpisode ["Home"; "Coffee"]] "Home" "Work").
  right. apply (bool_decide_unpack _). by vm_compute.
Defined.

(** ** Ingestion in closed form *)

Lemma states_add_episode episode e :
  states (add_episode episode e).2
  = (if (length episode <? 2)%nat then ∅ else list_to_set episode) ∪ states e.
Proof.
  rewrite add_episode_pairs. destruct (length episode <? 2)%nat eqn:Hlen.
  - set_solver.
  - by rewrite states_foldl_observed, Hlen.
Qed.

Lemma episodes_add_episode episode e :
  episodes (add_episode episode e).2
  = episodes e ++ (if (length episode <? 2)%nat then [] else [episode]).
Proof.
  rewrite add_episode_pairs. destruct (length episode <? 2)%nat.
  - by rewrite app_nil_r.
  - by rewrite episodes_foldl_observed.
Qed.

Lemma fst_adjacent_pairs (episode : list string) :
  (adjacent_pairs episode).*1 = removelast episode.
Proof.
  induction episode as [|a rest IH]; [done|].
  destruct rest as [|b rest]; [done|].
  change (adjacent_pairs (a :: b :: rest)) with ((a, b) :: adjacent_pairs (b :: rest)).
  change (removelast (a :: b :: rest)) with (a :: removelast (b :: rest)).
  by rewrite fmap_cons, IH.
Qed.

Lemma adjacent_pairs_zip (episode : list string) :
  adjacent_pairs episode = zip episode (tail episode).
Proof.
  induction episode as [|a rest IH]; [done|].
  destruct rest as [|b rest]; [done|].
  change (adjacent_pairs (a :: b :: rest)) with ((a, b) :: adjacent_pairs (b :: rest)).
  by rewrite IH.
Qed.

Lemma origin_occurrences_removelast (episode : list string) s :
  origin_occurrences (adjacent_pairs episode) s
  = Z.of_nat (length (filter (λ x, x = s) (removelast episode))).
Proof.
  rewrite <- fst_adjacent_pairs. unfold origin_occurrences. f_equal.
  induction (adjacent_pairs episode) as [|[a b] ps IH]; [done|].
  rewrite fmap_cons, !filter_cons. simpl.
  destruct (decide (a = s)); simpl; by rewrite IH.
Qed.

Lemma state_count_ingest (eps : list (list string)) s :
  state_count (ingest eps) s
  = Z.of_nat (length (filter (λ x, x = s) (concat (@removelast string <$> eps)))).
Proof.
  induction eps as [|episode eps IH] using rev_ind; [done|].
  rewrite ingest_snoc, state_count_add_episode, IH, origin_occurrences_removelast.
  rewrite fmap_app, concat_app, filter_app, length_app. simpl.
  rewrite app_nil_r. lia.
Qed.

Lemma transition_count_ingest (eps : list (list string)) s t :
  transition_count (ingest eps) s t
  = Z.of_nat (length (filter (λ p, p = (s, t))
                        (concat ((λ episode, zip episode (tail episode)) <$> eps)))).
Proof.
  induction eps as [|episode eps IH] using rev_ind; [done|].
  rewrite ingest_snoc, transition_count_add_episode, IH.
  unfold pair_occurrences. rewrite adjacent_pairs_zip.
  rewrite fmap_app, concat_app, filter_app, length_app. simpl.
  rewrite app_nil_r. lia.
Qed.

(** X3: after ingesting [eps] into a fresh estimator, the count of [s] is the
    number of occurrences of [s] in the episodes at a position other than
    the last, and the count of the pair [(s, t)] is the number of positions
    at which [s] is directly followed by [t]. *)
Theorem counts_of_ingest (eps : list (list string)) (s t : string) :
  state_count (ingest eps) s
  = Z.of_nat (length (filter (λ x, x = s) (concat (@removelast string <$> eps)))) ∧
  transition_count (ingest eps) s t
  = Z.of_nat (length (filter (λ p, p = (s, t))
                        (concat ((λ episode, zip episode (tail episode)) <$> eps)))).
Proof. split; [apply state_count_ingest | apply transition_count_ingest]. Qed.

Lemma elem_of_states_ingest (eps : list (list string)) s :
  s ∈ states (ingest eps)
  ↔ ∃ episode, episode ∈ eps ∧ (2 ≤ length episode)%nat ∧ s ∈ episode.
Proof.
  rewrite ingest_after_calls, (labels_consistent_after_calls _ s).
  rewrite <- ingest_after_calls, episodes_ingest. split.
  - intros (episode & Hin & Hs). apply list_elem_of_filter in Hin as [Hlen Hin]. eauto.
  - intros (episode & Hin & Hlen & Hs). exists episode. split; [|done].
    by apply list_elem_of_filter.
Qed.

Lemma ingest_app_counts (eps1 eps2 : list (list string)) :
  states (ingest (eps1 ++ eps2)) = states (ingest eps1) ∪ states (ingest eps2) ∧
  episodes (ingest (eps1 ++ eps2)) = episodes (ingest eps1) ++ episodes (ingest eps2) ∧
  (∀ s, state_count (ingest (eps1 ++ eps2)) s
        = state_count (ingest eps1) s + state_count (ingest eps2) s) ∧
  (∀ s t, transition_count (ingest (eps1 ++ eps2)) s t
          = transition_count (ingest eps1) s t + transition_count (ingest eps2) s t).
Proof.
  split; [|split; [|split]].
  - apply set_eq. intros s. rewrite elem_of_union, !elem_of_states_ingest. split.
    + intros (episode & Hin & Hrest). apply elem_of_app in Hin as [Hin|Hin]; eauto.
    + intros [(episode & Hin & Hrest)|(episode & Hin & Hrest)];
        exists episode; (split; [|done]); apply elem_of_app; eauto.
  - by rewrite !episodes_ingest, filter_app.
  - intros s. rewrite !state_count_ingest, fmap_app, concat_app, filter_app, length_app. lia.
  - intros s t.
    rewrite !transition_count_ingest, fmap_app, concat_app, filter_app, length_app. lia.
Qed.

(** X4: ingesting the episodes [eps1] and then [eps2] into a fresh estimator
    gives the union of the two state spaces, the concatenation of the two
    lists of retained episodes, and counters that are the sums of the
    counters the two batches give on their own. *)
Theorem ingest_app (eps1 eps2 : list (list string)) :
  states (ingest (eps1 ++ eps2)) = states (ingest eps1) ∪ states (ingest eps2) ∧
  episodes (ingest (eps1 ++ eps2)) = episodes (ingest eps1) ++ episodes (ingest eps2) ∧
  (∀ s, state_count (ingest (eps1 ++ eps2)) s
        = state_count (ingest eps1) s + state_count (ingest eps2) s) ∧
  (∀ s t, transition_count (ingest (eps1 ++ eps2)) s t
          = transition_count (ingest eps1) s t + transition_count (ingest eps2) s t).
Proof. apply ingest_app_counts. Qed.

Lemma ingest_permutation_counts (eps eps' : list (list string)) :
  eps ≡ₚ eps' →
  (∀ s, state_count (ingest eps) s = state_count (ingest eps') s) ∧
  (∀ s t, transition_count (ingest eps) s t = transition_count (ingest eps') s t).
Proof.
  induction 1 as [|x l l' Hperm [IHs IHt]|x y l|l1 l2 l3 _ [IH1s IH1t] _ [IH2s IH2t]].
  - done.
  - destruct (ingest_app_counts [x] l) as (_ & _ & Hs & Ht).
    destruct (ingest_app_counts [x] l') as (_ & _ & Hs' & Ht').
    simpl in *. split; intros; [rewrite Hs, Hs', IHs | rewrite Ht, Ht', IHt]; done.
  - destruct (ingest_app_counts [y] (x :: l)) as (_ & _ & Hy & Hy').
    destruct (ingest_app_counts [x] (y :: l)) as (_ & _ & Hx & Hx').
    destruct (ingest_app_counts [x] l) as (_ & _ & Hxl & Hxl').
    destruct (ingest_app_counts [y] l) as (_ & _ & Hyl & Hyl').
    simpl in *. split; intros.
    + rewrite Hy, Hx, Hxl, Hyl. lia.
    + rewrite Hy', Hx', Hxl', Hyl'. lia.
  - split; intros; [by rewrite IH1s, IH2s | by rewrite IH1t, IH2t].
Qed.

(** X5: the order in which episodes are ingested into a fresh estimator does
    not matter for the state space, for the counters or for the
    probabilities. *)
Theorem ingest_order_irrelevant (eps eps' : list (list string)) :
  eps ≡ₚ eps' →
  states (ingest eps) = states (ingest eps') ∧
  (∀ s, state_count (ingest eps) s = state_count (ingest eps') s) ∧
  (∀ s t, transition_count (ingest eps) s t = transition_count (ingest eps') s t) ∧
  (∀ s t, (get_transition_probability s t (ingest eps)).1
          = (get_transition_probability s t (ingest eps')).1).
Proof.
  intros Hperm. destruct (ingest_permutation_counts eps eps' Hperm) as [Hs Ht].
  split; [|split; [done|split; [done|]]].
  - apply set_eq. intros s. rewrite !elem_of_states_ingest.
    split; intros (episode & Hin & Hrest); exists episode; (split; [|done]).
    + by rewrite <- Hperm.
    + by rewrite Hperm.
  - intros s t. rewrite !get_transition_probability_eq, Hs, Ht.
    by destruct (state_count (ingest eps') s =? 0).
Qed.

(** Two episodes ingested in either order. *)
Lemma ingest_order_irrelevant_witness :
  states (ingest [["Home"; "Coffee"]; ["Coffee"; "Chat"; "Home"]])
    = states (ingest [["Coffee"; "Chat"; "Home"]; ["Home"; "Coffee"]]) ∧
  (∀ s, state_count (ingest [["Home"; "Coffee"]; ["Coffee"; "Chat"; "Home"]]) s
        = state_count (ingest [["Coffee"; "Chat"; "Home"]; ["Home"; "Coffee"]]) s) ∧
  (∀ s t,
     transition_count (ingest [["Home"; "Coffee"]; ["Coffee"; "Chat"; "Home"]]) s t
     = transition_count (ingest [["Coffee"; "Chat"; "Home"]; ["Home"; "Coffee"]]) s t) ∧
  (∀ s t,
     (get_transition_probability s t
        (ingest [["Home"; "Coffee"]; ["Coffee"; "Chat"; "Home"]])).1
     = (get_transition_probability s t
          (ingest [["Coffee"; "Chat"; "Home"]; ["Home"; "Coffee"]])).1).
Proof.
  apply (ingest_order_irrelevant [["Home"; "Coffee"]; ["Coffee"; "Chat"; "Home"]]
           [["Coffee"; "Chat"; "Home"]; ["Home"; "Coffee"]]).
  apply perm_swap.
Defined.

(** ** Calls only add *)

Lemma after_call_grows cs c :
  states (after_calls cs) ⊆ states (after_call (after_calls cs) c) ∧
  episodes (after_calls cs) `prefix_of` episodes (after_call (after_calls cs) c) ∧
  (∀ s, state_count (after_calls cs) s ≤ state_count (after_call (after_calls cs) c) s) ∧
  (∀ s t, transition_count (after_calls cs) s t
          ≤ transition_count (after_call (after_calls cs) c) s t).
Proof.
  pose proof (quiet_after_query cs c) as Hq.
  destruct c as [episode|a b| | |];
    [|destruct Hq as [-> -> Hs Ht];
      (split; [done|split; [done|split; intros; [by rewrite Hs | by rewrite Ht]]])..].
  simpl. split; [|split; [|split]].
  - rewrite states_add_episode. set_solver.
  - rewrite episodes_add_episode. by apply prefix_app_r.
  - intros s. rewrite state_count_add_episode. unfold origin_occurrences. lia.
  - intros s t. rewrite transition_count_add_episode. unfold pair_occurrences. lia.
Qed.

(** X6: the estimator only grows.  Whatever calls follow, no state leaves
    [states], the retained episodes stay as a prefix of [episodes], and no
    counter decreases. *)
Theorem calls_only_add (cs cs' : list Call) :
  states (after_calls cs) ⊆ states (after_calls (cs ++ cs')) ∧
  episodes (after_calls cs) `prefix_of` episodes (after_calls (cs ++ cs')) ∧
  (∀ s, state_count (after_calls cs) s ≤ state_count (after_calls (cs ++ cs')) s) ∧
  (∀ s t, transition_count (after_calls cs) s t
          ≤ transition_count (after_calls (cs ++ cs')) s t).
Proof.
  induction cs' as [|c cs' (IH1 & IH2 & IH3 & IH4)] using rev_ind.
  - rewrite app_nil_r. done.
  - rewrite app_assoc, after_calls_snoc.
    destruct (after_call_grows (cs ++ cs') c) as (H1 & H2 & H3 & H4).
    split; [|split; [|split]].
    + by etrans.
    + by etrans.
    + intros s. specialize (IH3 s). specialize (H3 s). lia.
    + intros s t. specialize (IH4 s t). specialize (H4 s t). lia.
Qed.

(** ** [get_transition_matrix] *)

Lemma transition_matrix_inner e0 e state_from (m0 : gmap string (gmap string Q)) :
  settled e0 e → m0 !! state_from = Some ∅ →
  let r := for_fold (elements (states e)) (λ state_to matrix,
      p <- get_transition_probability state_from state_to ;;
      ret (<[state_from := <[state_to := p]> (default ∅ (matrix !! state_from))]> matrix))
      m0 e in
  (∀ r', r' ≠ state_from → r.1 !! r' = m0 !! r') ∧
  (∃ row, r.1 !! state_from = Some row ∧
     ∀ c, row !! c = if decide (c ∈ states e0)
                     then Some (get_transition_probability state_from c e0).1
                     else None) ∧
  settled e0 r.2.
Proof.
  intros He Hm0 r.
  pose (P := λ (done : list string) (m : gmap string (gmap string Q)) e',
    (∀ r', r' ≠ state_from → m !! r' = m0 !! r') ∧
    (∃ row, m !! state_from = Some row ∧
       ∀ c, row !! c = if decide (c ∈ done)
                       then Some (get_transition_probability state_from c e0).1
                       else None) ∧
    settled e0 e').
  cut (P (elements (states e)) r.1 r.2); [|apply for_fold_rule; unfold P].
  - intros (Hother & (row & Hrow & Hcells) & He'). split; [done|]. split; [|done].
    exists row. split; [done|]. intros c. rewrite Hcells. apply decide_ext.
    by rewrite elem_of_elements, (quiet_states _ _ (proj1 He)).
  - split; [done|]. split; [|done]. exists ∅. split; [done|]. intros c.
    rewrite lookup_empty, decide_False; [done|apply not_elem_of_nil].
  - intros done a m e1 _ (Hother & (row & Hrow & Hcells) & He1). unfold bind.
    pose proof (settled_get_transition_probability e0 e1 state_from a He1) as [Hp He2].
    destruct (get_transition_probability state_from a e1) as [p e2]. simpl in *. subst p.
    split; [|split; [|done]].
    + intros r' Hne. rewrite lookup_insert_ne by done. by apply Hother.
    + rewrite Hrow. simpl. eexists. split; [apply lookup_insert_eq|]. intros c.
      destruct (decide (c = a)) as [->|Hne].
      * rewrite lookup_insert_eq, decide_True; [done|].
        apply elem_of_app. right. apply list_elem_of_here.
      * rewrite lookup_insert_ne by done. rewrite Hcells. apply decide_ext.
        rewrite elem_of_app, list_elem_of_singleton. tauto.
Qed.

Lemma get_transition_matrix_spec e :
  counts_consistent e →
  ∀ r, match (get_transition_matrix e).1 !! r with
       | Some row =>
           r ∈ states e ∧
           ∀ c, row !! c = if decide (c ∈ states e)
                           then Some (get_transition_probability r c e).1
                           else None
       | None => r ∉ states e
       end.
Proof.
  intros He. unfold get_transition_matrix, bind at 1, get_states at 1.
  pose (P := λ (done : list string) (m : gmap string (gmap string Q)) e',
    (∀ r, match m !! r with
          | Some row =>
              r ∈ done ∧
              ∀ c, row !! c = if decide (c ∈ states e)
                              then Some (get_transition_probability r c e).1
                              else None
          | None => r ∉ done
          end) ∧ settled e e').
  match goal with |- ∀ r, match ?x.1 !! r with _ => _ end =>
    cut (P (elements (states e)) x.1 x.2); [|apply for_fold_rule; unfold P]
  end.
  - intros [Hm _] r. specialize (Hm r).
    destruct (_ !! r); by rewrite elem_of_elements in Hm.
  - split; [|by apply settled_refl]. intros r. rewrite lookup_empty. apply not_elem_of_nil.
  - intros done a m e1 _ [Hm He1].
    match goal with |- context [(?b e1).1] => destruct (b e1) as [m1 e2] eqn:Hbody end.
    unfold bind at 1, get_states in Hbody.
    pose proof (transition_matrix_inner e e1 a (<[a := ∅]> m) He1 (lookup_insert_eq _ _ _))
      as (Hother & (row & Hrow & Hcells) & He2).
    simpl in Hother, Hrow, He2. rewrite Hbody in Hother, Hrow, He2. simpl in *.
    split; [|done]. intros r. destruct (decide (r = a)) as [->|Hne].
    + rewrite Hrow. split; [|done]. apply elem_of_app. right. apply list_elem_of_here.
    + rewrite Hother, lookup_insert_ne by done. specialize (Hm r).
      destruct (m !! r) as [row'|].
      * destruct Hm as [Hin Hrow']. split; [|done]. apply elem_of_app. by left.
      * rewrite elem_of_app, list_elem_of_singleton. tauto.
Qed.

(** X7: after any sequence of calls on a fresh estimator,
    [get_transition_matrix] returns a dense square matrix over [states]: it
    has a row exactly for every state in [states], every row has an entry
    exactly for every state in [states], and the entry of row [r] and column
    [c] is the value of [get_transition_probability(r, c)]. *)
Theorem transition_matrix_dense (cs : list Call) (r : string) :
  match (get_transition_matrix (after_calls cs)).1 !! r with
  | Some row =>
      r ∈ states (after_calls cs) ∧
      ∀ c : string,
        row !! c = if decide (c ∈ states (after_calls cs))
                   then Some (get_transition_probability r c (after_calls cs)).1
                   else None
  | None => r ∉ states (after_calls cs)
  end.
Proof. apply get_transition_matrix_spec, counts_consistent_after_calls. Qed.

(** ** Positive probabilities *)

Lemma probability_pos_iff e s t :
  counts_bounded e →
  (0 < (get_transition_probability s t e).1)%Q ↔ 0 < transition_count e s t.
Proof.
  intros Hb. specialize (Hb s t). rewrite get_transition_probability_eq.
  destruct (state_count e s =? 0) eqn:Hz; simpl.
  - apply Z.eqb_eq in Hz. split; [|lia]. intros H. by apply Qlt_irrefl in H.
  - apply Z.eqb_neq in Hz.
    assert (0 < inject_Z (state_count e s))%Q as Hpos by (apply inject_Z_pos; lia).
    split.
    + intros H. destruct (decide (0 < transition_count e s t)) as [|Hn]; [done|].
      exfalso. replace (transition_count e s t) with 0 in H by lia.
      unfold Qdiv in H. rewrite Qmult_0_l in H. by apply Qlt_irrefl in H.
    + intros H. apply Qlt_shift_div_l; [done|]. rewrite Qmult_0_l.
      by apply inject_Z_pos.
Qed.

(** X8: after any sequence of calls on a fresh estimator, the estimate for a
    pair is positive exactly when the transition has been observed: nothing
    is smoothed. *)
Theorem probability_positive_iff_observed (cs : list Call) (s t : string) :
  (0 < (get_transition_probability s t (after_calls cs)).1)%Q
  ↔ 0 < transition_count (after_calls cs) s t.
Proof. apply probability_pos_iff, counts_bounded_after_calls. Qed.

(** X9: after any sequence of calls on a fresh estimator, the sparse
    statistics hold exactly the positive entries of the dense matrix:
    [get_state_statistics] has an entry for the pair [(s, t)] with probability
    [p] exactly when [get_transition_matrix] has the entry [p] for the pair
    and [p] is positive. *)
Theorem statistics_match_matrix (cs : list Call) (s t : string) (p : Q) :
  (∃ r ts, (get_state_statistics (after_calls cs)).1 !! s = Some r ∧
           transitions r !! t = Some ts ∧ probability ts = p)
  ↔ (∃ row, (get_transition_matrix (after_calls cs)).1 !! s = Some row ∧
            row !! t = Some p ∧ (0 < p)%Q).
Proof.
  pose proof (counts_consistent_after_calls cs) as Hc.
  pose proof (counts_bounded_after_calls cs) as Hb.
  destruct (get_state_statistics_spec _ Hc) as [Hstats _].
  pose proof (get_transition_matrix_spec _ Hc s) as Hmatrix.
  specialize (Hstats s). unfold state_stat_of, transition_stat_of in Hstats.
  split.
  - intros (r & ts & Hr & Hts & Hp). rewrite Hr in Hstats.
    destruct Hstats as (Hs & _ & Htr). rewrite Htr in Hts.
    destruct (decide _) as [[Ht Hpos]|]; [|done]. injection Hts as <-. simpl in Hp.
    destruct (_ !! s) as [row|]; [|done]. destruct Hmatrix as [_ Hrow].
    exists row. split; [done|]. rewrite Hrow, decide_True by done. subst p.
    split; [done|]. by apply probability_pos_iff.
  - intros (row & Hrow & Hcell & Hpos). rewrite Hrow in Hmatrix.
    destruct Hmatrix as [Hs Hcells]. rewrite Hcells in Hcell.
    destruct (decide (t ∈ states (after_calls cs))) as [Ht|]; [|done].
    injection Hcell as <-. apply probability_pos_iff in Hpos; [|done].
    destruct (_ !! s) as [r|]; [|done]. destruct Hstats as (_ & _ & Htr).
    exists r. eexists. split; [done|]. rewrite Htr, decide_True by done. done.
Qed.

(** ** What queries leave behind *)

(** X10: after any sequence of calls on a fresh estimator, none of the four
    queries changes [states], [episodes] or the value of any counter; all a
    query can leave behind is an entry that holds 0. *)
Theorem queries_change_no_value (cs : list Call) :
  (∀ a b, quiet (after_calls cs) (get_transition_probability a b (after_calls cs)).2) ∧
  quiet (after_calls cs) (get_transition_matrix (after_calls cs)).2 ∧
  quiet (after_calls cs) (get_state_statistics (after_calls cs)).2 ∧
  quiet (after_calls cs) (print_summary (after_calls cs)).2.
Proof.
  pose proof (counts_consistent_after_calls cs) as Hc.
  split; [|split; [|split]].
  - intros a b. by apply settled_get_transition_probability, settled_refl.
  - by apply settled_get_transition_matrix.
  - by apply get_state_statistics_spec.
  - by apply settled_print_summary.
Qed.

Lemma put_state_count_twice s v e :
  put_state_count s v (put_state_count s v e) = put_state_count s v e.
Proof. unfold put_state_count. simpl. by rewrite insert_insert_eq. Qed.

Lemma put_transition_count_twice s t v e :
  put_transition_count s t v (put_transition_count s t v e) = put_transition_count s t v e.
Proof.
  unfold put_transition_count at 1. rewrite transition_row_put, decide_True by done.
  unfold put_transition_count. simpl. by rewrite !insert_insert_eq.
Qed.

(** X11: for every estimator, asking [get_transition_probability] the same
    question twice in a row gives the same answer, and the second call
    changes nothing at all: the entries the query creates are created by the
    first call. *)
Theorem repeated_query_changes_nothing (e : Estimator) (a b : string) :
  get_transition_probability a b (get_transition_probability a b e).2
  = get_transition_probability a b e.
Proof.
  rewrite (get_transition_probability_eq a b e).
  destruct (state_count e a =? 0) eqn:Hz; simpl.
  - rewrite get_transition_probability_eq, state_count_put, decide_True by done.
    rewrite Hz. by rewrite put_state_count_twice.
  - set (c := state_count e a) in *. set (k := transition_count e a b).
    set (e1 := put_transition_count a b k (put_state_count a c e)).
    rewrite get_transition_probability_eq.
    rewrite state_count_put, decide_True by done. rewrite Hz.
    change (transition_count (put_state_count a c e1) a b) with (transition_count e1 a b).
    assert (transition_count e1 a b = k) as ->.
    { unfold e1. rewrite transition_count_put, decide_True; done. }
    f_equal. rewrite put_state_count_twice.
    assert (put_transition_count a b k (put_state_count a c e1) = put_state_count a c e1)
      as ->; [|by rewrite put_state_count_twice].
    unfold e1. unfold put_state_count, put_transition_count, transition_row. simpl.
    rewrite dd_value_insert, decide_True by done.
    by rewrite !insert_insert_eq.
Qed.

(** ** The states are the ends of the counted transitions *)

Lemma endpoints_counted_observed e p :
  counts_bounded e → endpoints_counted e → endpoints_counted (observed e p).
Proof.
  destruct p as [a b]. intros Hb He s. rewrite states_observed.
  assert (0 < transition_count (observed e (a, b)) a b) as Hab.
  { rewrite transition_count_observed, decide_True by done. specialize (Hb a b). lia. }
  intros Hs.
  destruct (decide (s = a)) as [->|Ha]; [exists b; by left|].
  destruct (decide (s = b)) as [->|Hb']; [exists a; by right|].
  destruct (He s) as [t Ht]; [set_solver|]. exists t.
  rewrite !transition_count_observed.
  destruct Ht as [Ht|Ht]; [left|right];
    match goal with |- context [decide ?P] => destruct (decide P) end; lia.
Qed.

Lemma endpoints_counted_add_episode episode e :
  counts_bounded e → endpoints_counted e → endpoints_counted (add_episode episode e).2.
Proof.
  intros Hb He. rewrite add_episode_pairs.
  destruct (length episode <? 2)%nat; [done|].
  assert (counts_bounded (episodes_append episode e).2) as Hb' by done.
  assert (endpoints_counted (episodes_append episode e).2) as He' by done.
  revert Hb' He'. generalize (episodes_append episode e).2.
  induction (adjacent_pairs episode) as [|p ps IH]; intros e' Hb' He'; simpl; [done|].
  apply IH; [by apply counts_bounded_observed | by apply endpoints_counted_observed].
Qed.

Lemma endpoints_counted_quiet e e' :
  quiet e e' → endpoints_counted e → endpoints_counted e'.
Proof.
  intros Hq He s. rewrite (quiet_states _ _ Hq). intros Hs.
  destruct (He s Hs) as [t Ht]. exists t. by rewrite !(quiet_transition_count _ _ Hq).
Qed.

Lemma endpoints_counted_after_calls cs : endpoints_counted (after_calls cs).
Proof.
  induction cs as [|c cs IH] using rev_ind.
  - intros s Hs. by apply not_elem_of_empty in Hs.
  - rewrite after_calls_snoc. pose proof (quiet_after_query cs c) as Hq.
    destruct c as [episode|a b| | |];
      [apply endpoints_counted_add_episode; [apply counts_bounded_after_calls | done]
      |by apply (endpoints_counted_quiet (after_calls cs))..].
Qed.

(** X12: after any sequence of calls on a fresh estimator, a label is in
    [states] exactly when it is the origin or the destination of a
    transition with a positive count. *)
Theorem states_are_transition_endpoints (cs : list Call) (s : string) :
  s ∈ states (after_calls cs)
  ↔ ∃ t, 0 < transition_count (after_calls cs) s t
         ∨ 0 < transition_count (after_calls cs) t s.
Proof.
  pose proof (counts_consistent_after_calls cs) as Hc. split.
  - apply endpoints_counted_after_calls.
  - intros [t [Ht|Ht]].
    + apply (origins_known _ Hc), (transition_count_origin_key _ s t). lia.
    + apply (destinations_known _ Hc t s). lia.
Qed.

(** ** Ingestion stores no zero *)

Lemma dd_value_dom (d : gmap string Z) k : dd_value 0 k d ≠ 0 → k ∈ dom d.
Proof.
  unfold dd_value. intros Hne. apply elem_of_dom.
  destruct (d !! k); [done|]. by simpl in Hne.
Qed.

Lemma no_zero_entries_init : no_zero_entries init.
Proof. split; intros *; set_solver. Qed.

Lemma no_zero_entries_observed e p :
  counts_bounded e → no_zero_entries e → no_zero_entries (observed e p).
Proof.
  destruct p as [a b]. intros Hb [Hsc Horg Hrow].
  assert (0 ≤ state_count e a) as Ha by (specialize (Hb a b); lia).
  split.
  - intros s. rewrite dom_state_counts_observed, state_count_observed.
    destruct (decide (a = s)) as [->|Hne]; [lia|].
    intros Hs. assert (s ∈ dom (state_counts e)) as Hs' by set_solver.
    specialize (Hsc s Hs'). lia.
  - intros s. rewrite dom_transition_counts_observed, state_count_observed.
    destruct (decide (a = s)) as [->|Hne]; [lia|].
    intros Hs. assert (s ∈ dom (transition_counts e)) as Hs' by set_solver.
    specialize (Horg s Hs'). lia.
  - intros s t. rewrite dom_transition_row_observed, transition_count_observed.
    specialize (Hb s t).
    destruct (decide (a = s ∧ b = t)) as [[-> ->]|Hd]; [lia|].
    intros Ht. assert (t ∈ dom (transition_row e s)) as Ht'.
    { destruct (decide (a = s)) as [->|]; [|done].
      apply elem_of_union in Ht as [Ht|Ht]; [|done].
      apply elem_of_singleton in Ht. subst t. tauto. }
    specialize (Hrow s t Ht'). lia.
Qed.

Lemma no_zero_entries_add_episode episode e :
  counts_bounded e → no_zero_entries e → no_zero_entries (add_episode episode e).2.
Proof.
  intros Hb He. rewrite add_episode_pairs.
  destruct (length episode <? 2)%nat; [done|].
  assert (counts_bounded (episodes_append episode e).2) as Hb' by done.
  assert (no_zero_entries (episodes_append episode e).2) as He' by (by destruct He).
  revert Hb' He'. generalize (episodes_append episode e).2.
  induction (adjacent_pairs episode) as [|p ps IH]; intros e' Hb' He'; simpl; [done|].
  apply IH; [by apply counts_bounded_observed | by apply no_zero_entries_observed].
Qed.

Lemma no_zero_entries_ingest eps : no_zero_entries (ingest eps).
Proof.
  induction eps as [|episode eps IH] using rev_ind; [apply no_zero_entries_init|].
  rewrite ingest_snoc. apply no_zero_entries_add_episode; [|done].
  rewrite ingest_after_calls. apply counts_bounded_after_calls.
Qed.

(** X13: [add_episode] never stores a zero.  After ingestion alone, a state
    is a key of [state_counts], and of [transition_counts], exactly when its
    count as an origin is positive, and [t] is a key of the row of [s]
    exactly when the count of the pair is positive. *)
Theorem ingest_stores_no_zero (eps : list (list string)) (s t : string) :
  (s ∈ dom (state_counts (ingest eps)) ↔ 0 < state_count (ingest eps) s) ∧
  (s ∈ dom (transition_counts (ingest eps)) ↔ 0 < state_count (ingest eps) s) ∧
  (t ∈ dom (transition_row (ingest eps) s) ↔ 0 < transition_count (ingest eps) s t).
Proof.
  pose proof (no_zero_entries_ingest eps) as [Hsc Horg Hrow].
  split; [|split]; (split; [by auto|]); intros Hpos.
  - apply dd_value_dom. unfold state_count in Hpos. lia.
  - rewrite ingest_after_calls in *.
    rewrite (totals_agree _ (counts_consistent_after_calls _)) in Hpos.
    apply elem_of_dom.
    destruct (transition_counts (after_calls (CallAddEpisode <$> eps)) !! s) eqn:Hs; [done|].
    exfalso. unfold outgoing_total, transition_row, dd_value in Hpos.
    rewrite Hs in Hpos. simpl in Hpos. rewrite row_total_empty in Hpos. lia.
  - apply dd_value_dom. unfold transition_count in Hpos. lia.
Qed.

(** ** Cutting an episode *)

Lemma states_add_episode_short episode e :
  (length episode < 2)%nat → states (add_episode episode e).2 = states e.
Proof.
  intros Hlen. rewrite states_add_episode.
  assert ((length episode <? 2)%nat = true) as -> by (by apply Nat.ltb_lt). set_solver.
Qed.

Lemma states_add_episode_long episode e :
  (2 ≤ length episode)%nat →
  states (add_episode episode e).2 = list_to_set episode ∪ states e.
Proof.
  intros Hlen. rewrite states_add_episode.
  by assert ((length episode <? 2)%nat = false) as -> by (by apply Nat.ltb_ge).
Qed.

Ltac episode_length := simpl; rewrite ?length_app; simpl; lia.

Lemma adjacent_pairs_app (l1 l2 : list string) x :
  adjacent_pairs (l1 ++ x :: l2) = adjacent_pairs (l1 ++ [x]) ++ adjacent_pairs (x :: l2).
Proof.
  induction l1 as [|a l1 IH]; [done|].
  destruct l1 as [|a' l1]; [done|].
  change (adjacent_pairs ((a :: a' :: l1) ++ x :: l2))
    with ((a, a') :: adjacent_pairs ((a' :: l1) ++ x :: l2)).
  change (adjacent_pairs ((a :: a' :: l1) ++ [x]))
    with ((a, a') :: adjacent_pairs ((a' :: l1) ++ [x])).
  by rewrite IH.
Qed.

(** X14: an episode may be cut at any of its states, with that state ending
    the first part and starting the second: ingesting the two parts one after
    the other gives the same [states] and the same counters as ingesting the
    whole episode. *)
Theorem episode_cut (l1 l2 : list string) (x : string) (e : Estimator) :
  states (add_episode (l1 ++ x :: l2) e).2
    = states (add_episode (x :: l2) (add_episode (l1 ++ [x]) e).2).2 ∧
  (∀ s, state_count (add_episode (l1 ++ x :: l2) e).2 s
        = state_count (add_episode (x :: l2) (add_episode (l1 ++ [x]) e).2).2 s) ∧
  (∀ s t, transition_count (add_episode (l1 ++ x :: l2) e).2 s t
          = transition_count (add_episode (x :: l2) (add_episode (l1 ++ [x]) e).2).2 s t).
Proof.
  split; [|split].
  - destruct l1 as [|a l1], l2 as [|b l2]; cbn [app].
    + by rewrite !states_add_episode_short by episode_length.
    + rewrite !(states_add_episode_long (x :: b :: l2)) by episode_length.
      by rewrite (states_add_episode_short [x]) by episode_length.
    + by rewrite (states_add_episode_short [x]) by episode_length.
    + rewrite !states_add_episode_long by episode_length.
      rewrite !list_to_set_cons, !list_to_set_app_L, !list_to_set_cons. set_solver.
  - intros s. rewrite !state_count_add_episode, adjacent_pairs_app.
    unfold origin_occurrences. rewrite filter_app, length_app. lia.
  - intros s t. rewrite !transition_count_add_episode, adjacent_pairs_app.
    unfold pair_occurrences. rewrite filter_app, length_app. lia.
Qed.

(** ** The statistics add up *)

(** X15: after any sequence of calls on a fresh estimator, in the statistics
    of every state the counts of the listed transitions add up to
    [total_occurrences]. *)
Theorem statistics_counts_add_up (cs : list Call) (s : string) (r : StateStat) :
  (get_state_statistics (after_calls cs)).1 !! s = Some r →
  transitions_total (transitions r) = total_occurrences r.
Proof.
  intros Hr. pose proof (counts_consistent_after_calls cs) as Hc.
  pose proof (counts_bounded_after_calls cs) as Hb.
  destruct (get_state_statistics_spec _ Hc) as [Hstats _].
  specialize (Hstats s). rewrite Hr in Hstats.
  destruct Hstats as (Hs & -> & Htr).
  set (e := after_calls cs) in *.
  assert (∀ t, dd_value 0 t (count <$> transitions r) = transition_count e s t) as Hval.
  { intros t. unfold dd_value. rewrite lookup_fmap, Htr. unfold transition_stat_of.
    destruct (decide _) as [|Hn]; [done|]. simpl.
    destruct (decide (transition_count e s t = 0)) as [|Hne]; [done|].
    exfalso. apply Hn. split; [by apply (destinations_known _ Hc s)|].
    specialize (Hb s t). lia. }
  rewrite (totals_agree _ Hc), <- outgoing_total_over_states by done.
  unfold transitions_total.
  change (map_fold (λ _ ts acc, count ts + acc) 0 (transitions r))
    with (map_fold (λ i, (λ c acc, c + acc) ∘ count) 0 (transitions r)).
  rewrite <- (map_fold_fmap (λ _ c acc, c + acc) count).
  fold (row_total (count <$> transitions r)).
  rewrite <- (Zsum_row_cover _ (states e)).
  - f_equal. apply list_fmap_ext. intros _ t _. by rewrite Hval.
  - intros t. rewrite Hval. apply (destinations_known _ Hc s).
Qed.

(** The statistics of [Coffee] after [Coffee, Coffee, Chat]. *)
Lemma statistics_counts_add_up_witness :
  transitions_total
    (transitions
       (mkStateStat 2 {[ "Coffee" := mkTransitionStat 1 (1 # 2);
                         "Chat" := mkTransitionStat 1 (1 # 2) ]}))
  = total_occurrences
      (mkStateStat 2 {[ "Coffee" := mkTransitionStat 1 (1 # 2);
                        "Chat" := mkTransitionStat 1 (1 # 2) ]}).
Proof.
  apply (statistics_counts_add_up
           [CallAddEpisode ["Coffee"; "Coffee"; "Chat"]] "Coffee").
  by vm_compute.
Defined.

(** ** [print_summary] *)

Lemma print_summary_inner e0 e state_from (tos : list string) (out0 : list Line) :
  settled e0 e → state_from ∈ states e0 →
  let r := for_fold tos (λ state_to out,
      prob <- get_transition_probability state_from state_to ;;
      count <- transition_counts_get state_from state_to ;;
      if 0 <? count then ret (out ++ [LTo state_to prob count]) else ret out)
      out0 e in
  r.1 = out0 ++ omap (summary_to_line e0 state_from) tos ∧ settled e0 r.2.
Proof.
  intros He Hfrom r.
  pose (P := λ (done : list string) (out : list Line) e',
    out = out0 ++ omap (summary_to_line e0 state_from) done ∧ settled e0 e').
  cut (P tos r.1 r.2); [done|apply for_fold_rule; unfold P].
  - split; [by rewrite app_nil_r | done].
  - intros done a out e1 _ [-> He1]. unfold bind.
    pose proof (settled_get_transition_probability e0 e1 state_from a He1) as [Hp He2].
    destruct (get_transition_probability state_from a e1) as [prob e2]. simpl in Hp, He2.
    pose proof (settled_transition_counts_get e0 e2 state_from a He2 Hfrom) as [Hc He3].
    destruct (transition_counts_get state_from a e2) as [cnt e3]. simpl in Hc, He3.
    subst prob cnt. rewrite omap_app. cbn [omap list_omap].
    change (summary_to_line e0 state_from a)
      with (if 0 <? transition_count e0 state_from a
            then Some (LTo a (get_transition_probability state_from a e0).1
                         (transition_count e0 state_from a))
            else None).
    destruct (0 <? transition_count e0 state_from a); simpl.
    + split; [by rewrite app_assoc | done].
    + split; [by rewrite app_nil_r | done].
Qed.

Lemma print_summary_value e :
  counts_consistent e → (print_summary e).1 = summary_lines e.
Proof.
  intros He. unfold print_summary, summary_lines, bind at 1 2 3.
  unfold sorted_states at 1 2, episodes_len, bind at 1 2, get_states at 1 2, ret at 1 2.
  set (order := merge_sort String.le (elements (states e))).
  set (header := [LStateSpace order; LTotalEpisodes (length (episodes e)); LHeading; LRule]).
  pose (P := λ (done : list string) (out : list Line) e',
    out = header ++ concat (summary_block e order <$> done) ∧ settled e e').
  match goal with |- ?r.1 = _ =>
    cut (P order r.1 r.2); [by intros [? _]|apply for_fold_rule; unfold P]
  end.
  - split; [by rewrite app_nil_r | by apply settled_refl].
  - intros done a out e1 Ha [-> He1].
    assert (a ∈ states e) as Ha'.
    { unfold order in Ha. rewrite merge_sort_Permutation in Ha.
      by apply elem_of_elements in Ha. }
    match goal with |- context [(?b e1).1] => destruct (b e1) as [out' e4] eqn:Hbody end.
    unfold bind at 1 in Hbody.
    pose proof (settled_state_counts_get e e1 a He1) as He2.
    rewrite state_counts_get_eq in Hbody, He2. simpl in He2.
    rewrite (quiet_state_count _ _ (proj1 He1)) in Hbody, He2.
    rewrite fmap_app, concat_app. simpl. rewrite app_nil_r. unfold summary_block at 2.
    destruct (state_count e a =? 0).
    { unfold ret in Hbody. injection Hbody as <- <-. split; [|done]. by rewrite app_nil_r. }
    unfold bind at 1 in Hbody.
    pose proof (settled_state_counts_get e _ a He2) as He3.
    rewrite state_counts_get_eq in Hbody, He3. simpl in He3.
    rewrite state_count_put, decide_True in Hbody, He3 by done.
    unfold bind at 1, sorted_states, bind at 1, get_states, ret at 1 in Hbody.
    simpl in Hbody. rewrite (quiet_states _ _ (proj1 He1)) in Hbody. fold order in Hbody.
    pose proof (print_summary_inner e _ a order
                  ((header ++ concat (summary_block e order <$> done))
                   ++ [LFrom a (state_count e a)]) He3 Ha') as [Hout He4].
    simpl in Hout, He4. rewrite Hbody in Hout, He4. simpl in Hout, He4. subst out'.
    split; [|done]. by rewrite <- !app_assoc.
Qed.

(** X16: after any sequence of calls on a fresh estimator, [print_summary]
    writes the report that the counters determine: the sorted state space,
    the number of retained episodes, and a block for every state with a
    non-zero count as an origin, in sorted order, with a line for every
    destination with a positive count, in sorted order.  The entries that
    the reads create while printing do not show in any later line. *)
Theorem print_summary_lines (cs : list Call) :
  (print_summary (after_calls cs)).1 = summary_lines (after_calls cs).
Proof. apply print_summary_value, counts_consistent_after_calls. Qed.

Lemma from_lines_to_lines e s (order : list string) :
  from_lines (omap (summary_to_line e s) order) = [].
Proof.
  unfold from_lines. induction order as [|t order IH]; [done|].
  cbn [omap list_omap]. unfold summary_to_line at 1.
  by destruct (0 <? transition_count e s t).
Qed.

Lemma from_lines_blocks e (order l : list string) :
  from_lines (concat (summary_block e order <$> l))
  = (λ s, (s, state_count e s)) <$> filter (λ s, state_count e s ≠ 0) l.
Proof.
  induction l as [|s l IH]; [done|].
  rewrite fmap_cons, filter_cons. cbn [concat].
  unfold from_lines in *. rewrite omap_app, IH. unfold summary_block at 1.
  destruct (state_count e s =? 0) eqn:Hz.
  - apply Z.eqb_eq in Hz. by rewrite decide_False by tauto.
  - apply Z.eqb_neq in Hz. rewrite decide_True by done.
    cbn [omap list_omap]. fold (from_lines (omap (summary_to_line e s) order)).
    by rewrite from_lines_to_lines.
Qed.

(** X17: after any sequence of calls on a fresh estimator, the report of
    [print_summary] lists the state space in ascending order, and its blocks
    are headed, in that order, by exactly the states whose count as an
    origin is not zero, each with that count: a state that was only ever the
    last of an episode is in the state space line and has no block. *)
Theorem summary_origins (cs : list Call) :
  ∃ order rest,
    (print_summary (after_calls cs)).1
      = LStateSpace order :: LTotalEpisodes (length (episodes (after_calls cs))) :: rest ∧
    Sorted String.le order ∧
    order ≡ₚ elements (states (after_calls cs)) ∧
    from_lines (print_summary (after_calls cs)).1
      = (λ s, (s, state_count (after_calls cs) s))
          <$> filter (λ s, state_count (after_calls cs) s ≠ 0) order.
Proof.
  rewrite print_summary_value by apply counts_consistent_after_calls.
  unfold summary_lines.
  set (e := after_calls cs). set (order := merge_sort String.le (elements (states e))).
  exists order. eexists. split; [reflexivity|]. split; [|split].
  - apply (Sorted_merge_sort _).
  - apply merge_sort_Permutation.
  - change (from_lines (?h ++ ?t)) with (from_lines t). apply from_lines_blocks.
Qed.
